(** * Gaussian-process posterior of the notebook "6 - Gaussian Processes"

    The notebook defines [kernel] (squared exponential with a noise term that
    is added when the two inputs compare equal) and [GPpredict] (posterior
    mean and variance at a query point).  [compute_K] is called by the
    notebook but its body lives in [solutions/code5.py], which is not part of
    the sources.

    Numbers.  The notebook computes with IEEE doubles; here a double is
    idealised as a real number of [R], so rounding, overflow, infinities and
    NaN are outside the model.  A division by zero has no real value: it is
    modelled as the exception [ZeroDivisionError] (Python floats raise it,
    NumPy scalars produce [inf]/[nan] there).

    Arrays.  A one-dimensional array is a [list R]; a two-dimensional array
    is a record carrying its shape next to its rows, as [ndarray.shape]
    does, so that arrays with an empty axis keep their shape.

    Globals.  [GPpredict] reads [sigma_kernel], [l] and [sigma_noise] from
    the notebook's global scope at every call of [kernel]; this is modelled by
    a state-and-exception monad over the record of the notebook's globals. *)

From Stdlib Require Import Reals Lra Lia List Permutation Arith Bool.
From Stdlib Require Import Sorted.
Import ListNotations.
Local Open Scope R_scope.

(** ** Exceptions and results *)

Inductive exn : Set :=
| ZeroDivisionError
| IndexError
| ValueError
| InvalidParameter.

Inductive result (A : Type) : Type :=
| Ok (a : A)
| Raise (e : exn).

Arguments Ok {A} a.
Arguments Raise {A} e.

Definition rbind {A B : Type} (r : result A) (f : A -> result B) : result B :=
  match r with
  | Ok a => f a
  | Raise e => Raise e
  end.

Declare Scope result_scope.
Delimit Scope result_scope with res.
Notation "x <- c ;; k" := (rbind c (fun x => k))
  (at level 61, c at next level, right associativity) : result_scope.

(** ** NumPy arrays over the reals *)

Module np.

Abbreviation vec := (list R) (only parsing).

Record ndarray2 : Type := mk2 { nrows : nat; ncols : nat; rows : list vec }.

(** The rows agree with the recorded shape. *)
Definition wf (A : ndarray2) : Prop :=
  length (rows A) = nrows A /\ Forall (fun r => length r = ncols A) (rows A).

(** [np.zeros((r, c))]. *)
Definition zeros (r c : nat) : ndarray2 := mk2 r c (repeat (repeat 0 c) r).

(** [a[i]] for [0 <= i]; out of range raises [IndexError]. *)
Definition getitem (a : vec) (i : nat) : result R :=
  match nth_error a i with
  | Some v => Ok v
  | None => Raise IndexError
  end.

(** List update at a position (no change out of range; the callers
    below check the range first). *)
Fixpoint upd {A : Type} (i : nat) (v : A) (a : list A) : list A :=
  match a, i with
  | [], _ => []
  | _ :: t, O => v :: t
  | h :: t, S i' => h :: upd i' v t
  end.

(** [A[i, j] = v]; out of range raises [IndexError]. *)
Definition setitem (A : ndarray2) (i j : nat) (v : R) : result ndarray2 :=
  if (i <? nrows A)%nat && (j <? ncols A)%nat
  then Ok (mk2 (nrows A) (ncols A)
               (upd i (upd j v (nth i (rows A) [])) (rows A)))
  else Raise IndexError.

(** Entry [A[i, j]] and column [A[:, j]]. *)
Definition entry (A : ndarray2) (i j : nat) : R :=
  nth j (nth i (rows A) []) 0.

Definition col (j : nat) (A : ndarray2) : vec :=
  map (fun r => nth j r 0) (rows A).

(** [A.T]. *)
Definition T (A : ndarray2) : ndarray2 :=
  mk2 (ncols A) (nrows A) (map (fun j => col j A) (seq 0 (ncols A))).

(** Inner product of two one-dimensional arrays. *)
Fixpoint dot (u v : vec) : R :=
  match u, v with
  | a :: u', b :: v' => a * b + dot u' v'
  | _, _ => 0
  end.

(** Row vector times matrix. *)
Definition vecmat (v : vec) (B : ndarray2) : vec :=
  map (fun j => dot v (col j B)) (seq 0 (ncols B)).

(** [A @ B] for two-dimensional operands; the inner dimensions must
    agree, otherwise NumPy raises [ValueError]. *)
Definition matmul (A B : ndarray2) : result ndarray2 :=
  if (ncols A =? nrows B)%nat
  then Ok (mk2 (nrows A) (ncols B) (map (fun r => vecmat r B) (rows A)))
  else Raise ValueError.

(** [A @ v] for a two-dimensional [A] and a one-dimensional [v]. *)
Definition matvec (A : ndarray2) (v : vec) : result vec :=
  if (ncols A =? length v)%nat
  then Ok (map (fun r => dot r v) (rows A))
  else Raise ValueError.

(** [s - A] for a scalar [s] (broadcast over the entries). *)
Definition rsub (s : R) (A : ndarray2) : ndarray2 :=
  mk2 (nrows A) (ncols A) (map (map (fun a => s - a)) (rows A)).

(** The identity matrix [np.eye(n)]. *)
Definition eye (n : nat) : ndarray2 :=
  mk2 n n (map (fun i => map (fun j => if (i =? j)%nat then 1 else 0) (seq 0 n))
               (seq 0 n)).

(** [Kinv] is the exact inverse of [K], as [np.linalg.inv] would return
    it in exact arithmetic. *)
Definition inverse_of (K Kinv : ndarray2) : Prop :=
  wf K /\ wf Kinv /\
  matmul K Kinv = Ok (eye (nrows K)) /\
  matmul Kinv K = Ok (eye (nrows K)).

End np.

(** ** The kernel *)

(** Python's [x1 == x2] on numbers, and a [bool] used as a number. *)
Definition Req_bool (a b : R) : bool :=
  if Req_dec_T a b then true else false.

Definition R_of_bool (b : bool) : R := if b then 1 else 0.

(** [a / b]. *)
Definition divide (a b : R) : result R :=
  if Req_dec_T b 0 then Raise ZeroDivisionError else Ok (a / b).

(** [[
def kernel(x1,x2,sigma_kernel,l,sigma_noise):
    return sigma_kernel * sigma_kernel * np.exp(-(x1-x2)**2 / (2*l*l)) + sigma_noise*(x1==x2)
]] *)
Definition kernel (x1 x2 sigma_kernel l sigma_noise : R) : result R :=
  (q <- divide (- (x1 - x2) ^ 2) (2 * l * l) ;;
   Ok (sigma_kernel * sigma_kernel * exp q
       + sigma_noise * R_of_bool (Req_bool x1 x2)))%res.

(** The value [kernel] returns when it returns one. *)
Definition kval (sigma_kernel l sigma_noise x1 x2 : R) : R :=
  sigma_kernel * sigma_kernel * exp (- (x1 - x2) ^ 2 / (2 * l * l))
  + sigma_noise * R_of_bool (Req_bool x1 x2).

(** ** Globals of the notebook and the monad of [GPpredict] *)

Module Globals.
Record t : Type := mk {
  sigma_kernel : R;
  l : R;
  sigma_noise : R;
  X : np.vec;
  Y : np.vec;
  N : nat;
  Kinv : np.ndarray2;
  x : np.vec;
  y : np.vec;
  sigma : np.vec
}.

(** Two global scopes that agree on the three kernel parameters. *)
Definition same_params (g1 g2 : t) : Prop :=
  sigma_kernel g1 = sigma_kernel g2 /\ l g1 = l g2 /\
  sigma_noise g1 = sigma_noise g2.
End Globals.

(** A computation that may read and write the globals and may raise. *)
Definition M (A : Type) : Type := Globals.t -> result A * Globals.t.

Definition ret {A : Type} (a : A) : M A := fun g => (Ok a, g).

Definition bind {A B : Type} (m : M A) (f : A -> M B) : M B :=
  fun g => match m g with
           | (Ok a, g') => f a g'
           | (Raise e, g') => (Raise e, g')
           end.

(** Reading a global name. *)
Definition load {A : Type} (name : Globals.t -> A) : M A := fun g => (Ok (name g), g).

(** A computation that touches no global. *)
Definition lift {A : Type} (r : result A) : M A := fun g => (r, g).

Declare Scope M_scope.
Delimit Scope M_scope with M.
Notation "x <- c ;; k" := (bind c (fun x => k))
  (at level 61, c at next level, right associativity) : M_scope.

(** [for i in range(start, start + count): acc = body(i, acc)]. *)
Fixpoint for_loop {A : Type} (start count : nat) (body : nat -> A -> M A) (acc : A)
  : M A :=
  match count with
  | O => ret acc
  | S c => bind (body start acc) (for_loop (S start) c body)
  end.

Definition for_range {A : Type} (n : nat) (body : nat -> A -> M A) (acc : A) : M A :=
  for_loop 0 n body acc.

(** ** GPpredict *)

(** [[
def GPpredict(x_new, x_data, y_data, Kinv):
    N = y_data.shape[0]
    Kstar = np.zeros((1,N))
    for i in range(N):
        Kstar[0,i] = kernel(x_data[i], x_new, sigma_kernel, l, sigma_noise)
    mu = Kstar @ Kinv @ y_data
    sigma = kernel(x_new,x_new,sigma_kernel,l,sigma_noise) - Kstar @ Kinv @ Kstar.T
    return mu, sigma
]]
    [mu] has shape [(1,)] and [sigma] has shape [(1,1)]. *)
Definition GPpredict (x_new : R) (x_data y_data : np.vec) (Kinv : np.ndarray2)
  : M (np.vec * np.ndarray2) :=
  (let N := length y_data in
   Kstar <- for_range N
              (fun i Kstar =>
                 xi <- lift (np.getitem x_data i) ;;
                 sk <- load Globals.sigma_kernel ;;
                 ls <- load Globals.l ;;
                 sn <- load Globals.sigma_noise ;;
                 v <- lift (kernel xi x_new sk ls sn) ;;
                 lift (np.setitem Kstar 0 i v))
              (np.zeros 1 N) ;;
   mu <- lift (rbind (np.matmul Kstar Kinv) (fun P => np.matvec P y_data)) ;;
   sk <- load Globals.sigma_kernel ;;
   ls <- load Globals.l ;;
   sn <- load Globals.sigma_noise ;;
   k0 <- lift (kernel x_new x_new sk ls sn) ;;
   q <- lift (rbind (np.matmul Kstar Kinv) (fun P => np.matmul P (np.T Kstar))) ;;
   ret (mu, np.rsub k0 q))%M.

(** ** compute_K *)

(** All results of a list of results, or the first exception. *)
Fixpoint sequence {A : Type} (rs : list (result A)) : result (list A) :=
  match rs with
  | [] => Ok []
  | r :: rs' => (a <- r ;; t <- sequence rs' ;; Ok (a :: t))%res
  end.

(** Modelled from the spec: [compute_K] (the spec's [build_gram_matrix]); its
    body is in [solutions/code5.py], which is missing from the sources.  The
    spec rejects a length scale [l <= 0] and an empty training set with
    [InvalidParameter] before any matrix work, and otherwise returns the
    [N]x[N] matrix whose entry [(i,j)] is [kernel(X[i], X[j])], which is also
    the covariance matrix the notebook's text defines. *)
Definition compute_K (X : np.vec) (sigma_kernel l sigma_noise : R)
  : result np.ndarray2 :=
  if Rle_dec l 0 then Raise InvalidParameter
  else if (length X =? 0)%nat then Raise InvalidParameter
  else
    (K <- sequence
            (map (fun xi =>
                    sequence (map (fun xj => kernel xi xj sigma_kernel l sigma_noise) X))
                 X) ;;
     Ok (np.mk2 (length X) (length X) K))%res.

(** ** Mathematical notions used in the statements *)

(** [Rsum n f] is the sum of [f 0 .. f (n-1)]. *)
Fixpoint Rsum (n : nat) (f : nat -> R) : R :=
  match n with
  | O => 0
  | S n' => Rsum n' f + f n'
  end.

(** Sum of the elements of a list. *)
Definition Rlist_sum (a : list R) : R := fold_right Rplus 0 a.

(** The Gram matrix of the inputs [X] as a table of kernel values. *)
Definition Gram (sigma_kernel l sigma_noise : R) (X : np.vec) : np.ndarray2 :=
  np.mk2 (length X) (length X)
         (map (fun xi => map (fun xj => kval sigma_kernel l sigma_noise xi xj) X) X).

(** The cross-covariance vector [K*] of a query point. *)
Definition Kstar_of (sigma_kernel l sigma_noise : R) (X : np.vec) (x_new : R) : np.vec :=
  map (fun xi => kval sigma_kernel l sigma_noise xi x_new) X.

(** ** Purity *)

(** [m] reads nothing of the globals but the three kernel parameters and
    writes no global: run in two global scopes that agree on the parameters,
    it yields the same result (value or exception) and leaves each scope as it
    found it. *)
Definition pure_in_params {A : Type} (m : M A) : Prop :=
  forall g1 g2 : Globals.t,
    Globals.same_params g1 g2 ->
    fst (m g1) = fst (m g2) /\ snd (m g1) = g1 /\ snd (m g2) = g2.

(** ** Sample data *)

(** The globals as the notebook has set them when it plots the second
    experiment ([sigma_kernel = 3], [l = 1], [sigma_noise = 0.3]); the arrays
    are small stand-ins. *)
Definition notebook_globals : Globals.t :=
  Globals.mk 3 1 (3 / 10) [1; 2] [1; 4] 2 (np.eye 2) [] [] [].

(** The same kernel parameters in an otherwise different global scope. *)
Definition other_globals : Globals.t :=
  Globals.mk 3 1 (3 / 10) [5] [7] 1 (np.zeros 1 1) [0] [0] [0].

(** A noise-free global scope ([sigma_noise = 0]) with one training point. *)
Definition noise_free_globals : Globals.t :=
  Globals.mk 1 1 0 [2] [5] 1 (np.mk2 1 1 [[1 / (1 * 1 + 0)]]) [] [] [].

(** A symmetric 3x3 matrix with constant diagonals, its determinant and its
    inverse (adjugate over determinant): the shape of the Gram matrix of
    three equally spaced inputs. *)
Definition toeplitz3 (a b c : R) : np.ndarray2 :=
  np.mk2 3 3 [[a; b; c]; [b; a; b]; [c; b; a]].

Definition toeplitz3_det (a b c : R) : R :=
  a * a * a - 2 * a * b * b + 2 * b * b * c - a * c * c.

Definition toeplitz3_inv (a b c : R) : np.ndarray2 :=
  let d := toeplitz3_det a b c in
  np.mk2 3 3
    [[(a * a - b * b) / d; b * (c - a) / d; (b * b - a * c) / d];
     [b * (c - a) / d; (a * a - c * c) / d; b * (c - a) / d];
     [(b * b - a * c) / d; b * (c - a) / d; (a * a - b * b) / d]].

(** The scenario of the spec: X = [1,2,3], Y = [1,4,9], sigma_kernel = 3,
    l = 1, sigma_noise = 1e-6, and the exact inverse of its Gram matrix. *)
Definition scenario_noise : R := 1 / 1000000.

Definition scenario_Kinv : np.ndarray2 :=
  toeplitz3_inv (3 * 3 + scenario_noise) (9 * exp (- (1 / 2))) (9 * exp (- 2)).

Definition scenario_globals : Globals.t :=
  Globals.mk 3 1 scenario_noise [1; 2; 3] [1; 4; 9] 3 scenario_Kinv [] [] [].

(** * The rest of the notebook *)

(** ** One-dimensional NumPy operations *)

Module numpy.

(** Pairing two lists position by position. *)
Fixpoint zip_with {A B C : Type} (f : A -> B -> C) (a : list A) (b : list B) : list C :=
  match a, b with
  | u :: a', v :: b' => f u v :: zip_with f a' b'
  | _, _ => []
  end.

(** An element-wise binary operation on one-dimensional operands with
    NumPy's broadcasting: the lengths are equal, or one operand has length
    one and is repeated; any other pair of shapes raises [ValueError]. *)
Definition broadcast {A B C : Type} (f : A -> B -> C) (a : list A) (b : list B)
  : result (list C) :=
  if (length a =? length b)%nat then Ok (zip_with f a b)
  else match a, b with
       | [u], _ => Ok (map (f u) b)
       | _, [v] => Ok (map (fun u => f u v) a)
       | _, _ => Raise ValueError
       end.

(** [a - b], [a + b] on arrays and [s * a] for a scalar [s]. *)
Definition subtract (a b : list R) : result (list R) := broadcast Rminus a b.

Definition add (a b : list R) : result (list R) := broadcast Rplus a b.

Definition scale (s : R) (a : list R) : list R := map (Rmult s) a.

(** [a[::-1]]. *)
Definition flip {A : Type} (a : list A) : list A := rev a.

(** [np.concatenate([a1, a2, ...])] on one-dimensional arrays. *)
Definition concatenate {A : Type} (arrays : list (list A)) : list A := concat arrays.

(** [np.zeros(a.shape)] for a one-dimensional [a]. *)
Definition zeros_like (a : list R) : list R := repeat 0 (length a).

(** A size-one array used where a scalar is expected (NumPy converts it;
    an array of any other size raises [ValueError]). *)
Definition item (a : list R) : result R :=
  match a with
  | [v] => Ok v
  | _ => Raise ValueError
  end.

Definition item2 (A : np.ndarray2) : result R :=
  match np.rows A with
  | [[v]] => Ok v
  | _ => Raise ValueError
  end.

(** [a[i] = v] on a one-dimensional array. *)
Definition setitem (a : list R) (i : nat) (v : R) : result (list R) :=
  if (i <? length a)%nat then Ok (np.upd i v a) else Raise IndexError.

(** [np.not_equal(a, b)] on integer labels. *)
Definition not_equal (a b : list Z) : result (list bool) :=
  broadcast (fun u v => negb (Z.eqb u v)) a b.

(** [np.sum(m)] of a boolean array: the number of [True]. *)
Definition sum (m : list bool) : nat := length (filter (fun b => b) m).

(** The elements of [a] at the positions where the mask is [True]. *)
Fixpoint compress {A : Type} (m : list bool) (a : list A) : list A :=
  match m, a with
  | b :: m', h :: a' => if b then h :: compress m' a' else compress m' a'
  | _, _ => []
  end.

(** [a[m]] for a boolean mask [m]; a mask of another length raises
    [IndexError]. *)
Definition mask {A : Type} (a : list A) (m : list bool) : result (list A) :=
  if (length m =? length a)%nat then Ok (compress m a) else Raise IndexError.

(** [a[idx]] for an array of indices; an index out of range raises
    [IndexError]. *)
Fixpoint take {A : Type} (a : list A) (idx : list nat) : result (list A) :=
  match idx with
  | [] => Ok []
  | i :: rest =>
      match nth_error a i with
      | Some v => (t <- take a rest ;; Ok (v :: t))%res
      | None => Raise IndexError
      end
  end.

(** [np.split(a, [n])]: the pair [a[:n]], [a[n:]]. *)
Definition split {A : Type} (a : list A) (n : nat) : list A * list A :=
  (firstn n a, skipn n a).

End numpy.

(** ** Python lists *)

(** [enumerate(a)]. *)
Fixpoint enumerate_from {A : Type} (start : nat) (a : list A) : list (nat * A) :=
  match a with
  | [] => []
  | h :: t => (start, h) :: enumerate_from (S start) t
  end.

Definition enumerate {A : Type} (a : list A) : list (nat * A) := enumerate_from 0 a.

(** [a[i]] on a Python list, for [0 <= i]. *)
Definition list_getitem {A : Type} (a : list A) (i : nat) : result A :=
  match nth_error a i with
  | Some v => Ok v
  | None => Raise IndexError
  end.

(** ** The toy function *)

(** [[
def func(x):
    return x*np.sin(x)
]]
    applied to a one-dimensional array. *)
Definition func (x : list R) : list R := map (fun t => t * sin t) x.

(** ** Prediction on the grid *)

(** Assignment to the global names [y] and [sigma]. *)
Definition set_y (v : list R) (g : Globals.t) : Globals.t :=
  Globals.mk (Globals.sigma_kernel g) (Globals.l g) (Globals.sigma_noise g)
             (Globals.X g) (Globals.Y g) (Globals.N g) (Globals.Kinv g)
             (Globals.x g) v (Globals.sigma g).

Definition set_sigma (v : list R) (g : Globals.t) : Globals.t :=
  Globals.mk (Globals.sigma_kernel g) (Globals.l g) (Globals.sigma_noise g)
             (Globals.X g) (Globals.Y g) (Globals.N g) (Globals.Kinv g)
             (Globals.x g) (Globals.y g) v.

Definition store_y (v : list R) : M unit := fun g => (Ok tt, set_y v g).

Definition store_sigma (v : list R) : M unit := fun g => (Ok tt, set_sigma v g).

(** [[
y = np.zeros(x.shape)
sigma = np.zeros(x.shape)
for i in range(x.shape[0]):
    y[i], sigma[i] = GPpredict(x[i], X, Y, Kinv)
]]
    The right-hand side is evaluated first, then [y[i]] and [sigma[i]] are
    assigned in this order; the arrays of shape (1,) and (1,1) that
    [GPpredict] returns are stored as scalars. *)
Definition predict_on_grid : M unit :=
  (xg <- load Globals.x ;;
   _ <- store_y (numpy.zeros_like xg) ;;
   xg <- load Globals.x ;;
   _ <- store_sigma (numpy.zeros_like xg) ;;
   xg <- load Globals.x ;;
   for_range (length xg)
     (fun i _ =>
        xg <- load Globals.x ;;
        xi <- lift (np.getitem xg i) ;;
        Xg <- load Globals.X ;;
        Yg <- load Globals.Y ;;
        Kg <- load Globals.Kinv ;;
        r <- GPpredict xi Xg Yg Kg ;;
        yg <- load Globals.y ;;
        m <- lift (numpy.item (fst r)) ;;
        yg' <- lift (numpy.setitem yg i m) ;;
        _ <- store_y yg' ;;
        sg <- load Globals.sigma ;;
        v <- lift (numpy.item2 (snd r)) ;;
        sg' <- lift (numpy.setitem sg i v) ;;
        store_sigma sg')
     tt)%M.

(** Two global scopes that differ at most in [y] and [sigma]. *)
Definition same_but_y_sigma (g g' : Globals.t) : Prop :=
  Globals.sigma_kernel g' = Globals.sigma_kernel g
  /\ Globals.l g' = Globals.l g
  /\ Globals.sigma_noise g' = Globals.sigma_noise g
  /\ Globals.X g' = Globals.X g
  /\ Globals.Y g' = Globals.Y g
  /\ Globals.N g' = Globals.N g
  /\ Globals.Kinv g' = Globals.Kinv g
  /\ Globals.x g' = Globals.x g.

(** The posterior mean and variance as functions of the query point. *)
Definition posterior_mean (sk l sn : R) (X Y : list R) (Kinv : np.ndarray2) (x_new : R)
  : R :=
  np.dot (np.vecmat (Kstar_of sk l sn X x_new) Kinv) Y.

Definition posterior_variance (sk l sn : R) (X : list R) (Kinv : np.ndarray2) (x_new : R)
  : R :=
  kval sk l sn x_new x_new
  - np.dot (np.vecmat (Kstar_of sk l sn X x_new) Kinv) (Kstar_of sk l sn X x_new).

(** ** The confidence band *)

(** The two coordinate arrays handed to [plt.fill]:
[[
np.concatenate([x, x[::-1]]),
np.concatenate([y - 1.9600 * sigma, (y + 1.9600 * sigma)[::-1]])
]] *)
Definition fill_polygon (x y sigma : list R) : result (list R * list R) :=
  (let px := numpy.concatenate [x; numpy.flip x] in
   lo <- numpy.subtract y (numpy.scale (196 / 100) sigma) ;;
   hi <- numpy.add y (numpy.scale (196 / 100) sigma) ;;
   Ok (px, numpy.concatenate [lo; numpy.flip hi]))%res.

(** ** Shuffling and splitting *)

(** [sklearn.utils.shuffle(X, y)]: both arrays are indexed by one random
    permutation of their positions; arrays of different lengths raise
    [ValueError].  The permutation drawn by the generator is the parameter
    [perm]. *)
Definition shuffle {A B : Type} (perm : list nat) (X : list A) (y : list B)
  : result (list A * list B) :=
  if (length X =? length y)%nat
  then (X0 <- numpy.take X perm ;; y0 <- numpy.take y perm ;; Ok (X0, y0))%res
  else Raise ValueError.

(** [[
def shuffle_and_split(X,y,n):
    X0,y0 = shuffle(X,y)
    Xtrain,Xtest = np.split(X0,[n])
    ytrain,ytest = np.split(y0,[n])
    return Xtrain, ytrain, Xtest, ytest
]] *)
Definition shuffle_and_split {A B : Type} (perm : list nat) (X : list A) (y : list B)
           (n : nat) : result (list A * list B * list A * list B) :=
  (X0y0 <- shuffle perm X y ;;
   let '(X0, y0) := X0y0 in
   let '(Xtrain, Xtest) := numpy.split X0 n in
   let '(ytrain, ytest) := numpy.split y0 n in
   Ok (Xtrain, ytrain, Xtest, ytest))%res.

(** ** Misclassified examples *)

Record misclassified (A : Type) : Type := mk_misclassified {
  misclass : list bool;
  Xmisclass : list A;
  ymisclass : list Z;
  misclass_indices : list nat
}.

Arguments mk_misclassified {A}.
Arguments misclass {A}.
Arguments Xmisclass {A}.
Arguments ymisclass {A}.
Arguments misclass_indices {A}.

(** [[
misclass = np.not_equal(ypredict, ytest)
Xmisclass = Xtest[misclass,:]
ymisclass = ytest[misclass]
misclass_indices = [i for i, j in enumerate(misclass) if j == True]
]] *)
Definition find_misclassified {A : Type} (ypredict ytest : list Z) (Xtest : list A)
  : result (misclassified A) :=
  (m <- numpy.not_equal ypredict ytest ;;
   Xm <- numpy.mask Xtest m ;;
   ym <- numpy.mask ytest m ;;
   Ok (mk_misclassified m Xm ym
         (map fst (filter (fun p => Bool.eqb (snd p) true) (enumerate m)))))%res.

(** [index = misclass_indices[0]+2000]. *)
Definition first_misclassified (indices : list nat) : result nat :=
  (i <- list_getitem indices 0 ;; Ok (i + 2000)%nat)%res.

(** [np.sum(np.not_equal(prediction,ytest))/len(ytest)]. *)
Definition generalization_error (prediction ytest : list Z) : result R :=
  (m <- numpy.not_equal prediction ytest ;;
   divide (INR (numpy.sum m)) (INR (length ytest)))%res.

(** * Proofs *)

(** ** Lists *)

Section ListFacts.
Context {A : Type}.

Lemma nth_error_nth_lt (a : list A) (i : nat) (d : A) :
  (i < length a)%nat -> nth_error a i = Some (nth i a d).
Proof.
  revert i; induction a as [|h t IH]; intros [|i] Hi; simpl in *; try lia; auto.
  apply IH; lia.
Qed.

Lemma firstn_snoc (a : list A) (n : nat) (d : A) :
  (n < length a)%nat -> firstn (S n) a = firstn n a ++ [nth n a d].
Proof.
  revert n; induction a as [|h t IH]; intros [|n] Hn; simpl in *; try lia; auto.
  f_equal. apply IH; lia.
Qed.

Lemma upd_middle (a t : list A) (b v : A) :
  np.upd (length a) v (a ++ b :: t) = a ++ v :: t.
Proof. induction a as [|h a IH]; simpl; [reflexivity | now rewrite IH]. Qed.

Lemma nth_map_seq (f : nat -> A) (n j : nat) (d : A) :
  (j < n)%nat -> nth j (map f (seq 0 n)) d = f j.
Proof.
  intros Hj. rewrite (nth_indep _ d (f 0%nat)) by (rewrite length_map, length_seq; lia).
  rewrite (map_nth f (seq 0 n) 0%nat j). now rewrite seq_nth.
Qed.

Lemma map_nth_seq (a : list A) (d : A) :
  map (fun j => nth j a d) (seq 0 (length a)) = a.
Proof.
  apply (nth_ext _ _ d d).
  - now rewrite length_map, length_seq.
  - intros n Hn. rewrite length_map, length_seq in Hn. now apply nth_map_seq.
Qed.
End ListFacts.

(** ** Finite sums *)

Lemma Rsum_ext (n : nat) (f g : nat -> R) :
  (forall i, (i < n)%nat -> f i = g i) -> Rsum n f = Rsum n g.
Proof.
  induction n as [|n IH]; intros H; simpl; [reflexivity|].
  rewrite IH, H by (intros; auto with arith); auto.
Qed.

Lemma Rsum_shift (n : nat) (f : nat -> R) :
  Rsum (S n) f = f 0%nat + Rsum n (fun i => f (S i)).
Proof.
  induction n as [|n IH]; [simpl; lra|].
  change (Rsum (S (S n)) f) with (Rsum (S n) f + f (S n)).
  rewrite IH. simpl. lra.
Qed.

Lemma Rsum_plus (n : nat) (f g : nat -> R) :
  Rsum n (fun i => f i + g i) = Rsum n f + Rsum n g.
Proof. induction n as [|n IH]; simpl; [lra | rewrite IH; lra]. Qed.

Lemma Rsum_scal_l (n : nat) (c : R) (f : nat -> R) :
  Rsum n (fun i => c * f i) = c * Rsum n f.
Proof. induction n as [|n IH]; simpl; [lra | rewrite IH; lra]. Qed.

Lemma Rsum_scal_r (n : nat) (c : R) (f : nat -> R) :
  Rsum n (fun i => f i * c) = Rsum n f * c.
Proof. induction n as [|n IH]; simpl; [lra | rewrite IH; lra]. Qed.

Lemma Rsum_zero (n : nat) : Rsum n (fun _ => 0) = 0.
Proof. induction n as [|n IH]; simpl; [reflexivity | rewrite IH; lra]. Qed.

Lemma Rsum_swap (n m : nat) (f : nat -> nat -> R) :
  Rsum n (fun i => Rsum m (fun j => f i j)) = Rsum m (fun j => Rsum n (fun i => f i j)).
Proof.
  induction n as [|n IH]; simpl.
  - now rewrite Rsum_zero.
  - rewrite IH. now rewrite <- Rsum_plus.
Qed.

(** A sum whose only non-zero term sits at index [j]. *)
Lemma Rsum_delta (n j : nat) (f : nat -> R) :
  (j < n)%nat ->
  Rsum n (fun i => (if (j =? i)%nat then 1 else 0) * f i) = f j.
Proof.
  induction n as [|n IH]; intros Hj; [lia|]. simpl.
  destruct (Nat.eq_dec j n) as [->|Hne].
  - rewrite Nat.eqb_refl.
    rewrite (Rsum_ext n _ (fun _ => 0)).
    + rewrite Rsum_zero. lra.
    + intros i Hi. destruct (Nat.eqb_spec n i); [lia | lra].
  - destruct (Nat.eqb_spec j n); [contradiction|].
    rewrite IH by lia. lra.
Qed.

(** ** Inner products *)

Lemma dot_Rsum (u v : np.vec) (n : nat) :
  length u = n -> length v = n ->
  np.dot u v = Rsum n (fun i => nth i u 0 * nth i v 0).
Proof.
  revert v n; induction u as [|a u IH]; intros [|b v] n Hu Hv; simpl in *; subst n;
    try discriminate; [reflexivity|].
  rewrite Rsum_shift. simpl. f_equal. apply IH; auto; lia.
Qed.

Lemma dot_map {A : Type} (f g : A -> R) (a : list A) :
  np.dot (map f a) (map g a) = Rlist_sum (map (fun t => f t * g t) a).
Proof. induction a as [|h a IH]; simpl; [reflexivity | now rewrite IH]. Qed.

Lemma Rlist_sum_perm (a b : list R) : Permutation a b -> Rlist_sum a = Rlist_sum b.
Proof.
  induction 1 as [| x a b _ IH | x y a | a b c _ IH1 _ IH2]; simpl in *; lra.
Qed.

(** ** The kernel *)

Lemma Req_bool_refl (a : R) : Req_bool a a = true.
Proof. unfold Req_bool. destruct (Req_dec_T a a); [reflexivity | contradiction]. Qed.

Lemma Req_bool_sym (a b : R) : Req_bool a b = Req_bool b a.
Proof.
  unfold Req_bool. destruct (Req_dec_T a b), (Req_dec_T b a); congruence.
Qed.

Lemma Req_bool_neq (a b : R) : a <> b -> Req_bool a b = false.
Proof. intros H. unfold Req_bool. destruct (Req_dec_T a b); [contradiction | reflexivity]. Qed.

Lemma divide_ok (a b : R) : b <> 0 -> divide a b = Ok (a / b).
Proof. intros H. unfold divide. destruct (Req_dec_T b 0); [contradiction | reflexivity]. Qed.

Lemma two_l_l_neq (l : R) : l <> 0 -> 2 * l * l <> 0.
Proof. intros H E. apply H. nra. Qed.

Lemma kernel_ok (x1 x2 sk l sn : R) :
  l <> 0 -> kernel x1 x2 sk l sn = Ok (kval sk l sn x1 x2).
Proof.
  intros H. unfold kernel, kval. now rewrite divide_ok by now apply two_l_l_neq.
Qed.

Lemma kernel_l_zero (x1 x2 sk sn : R) :
  kernel x1 x2 sk 0 sn = Raise ZeroDivisionError.
Proof.
  unfold kernel, divide. destruct (Req_dec_T (2 * 0 * 0) 0) as [_|H]; [reflexivity|].
  exfalso; apply H; lra.
Qed.

Lemma kernel_comm (x1 x2 sk l sn : R) :
  kernel x1 x2 sk l sn = kernel x2 x1 sk l sn.
Proof.
  unfold kernel. rewrite (Req_bool_sym x1 x2).
  replace (- (x1 - x2) ^ 2) with (- (x2 - x1) ^ 2) by ring. reflexivity.
Qed.

Lemma kval_comm (sk l sn x1 x2 : R) : kval sk l sn x1 x2 = kval sk l sn x2 x1.
Proof.
  unfold kval. rewrite (Req_bool_sym x1 x2).
  replace (- (x1 - x2) ^ 2) with (- (x2 - x1) ^ 2) by ring. reflexivity.
Qed.

Lemma kval_diag (sk l sn a : R) : kval sk l sn a a = sk * sk + sn.
Proof.
  unfold kval. rewrite Req_bool_refl.
  replace (- (a - a) ^ 2 / (2 * l * l)) with 0 by (unfold Rdiv; ring).
  rewrite exp_0. unfold R_of_bool. ring.
Qed.

(** The kernel only sees [l] through [l*l]. *)
Lemma kernel_l_opp (x1 x2 sk l sn : R) :
  kernel x1 x2 sk (- l) sn = kernel x1 x2 sk l sn.
Proof. unfold kernel. replace (2 * - l * - l) with (2 * l * l) by ring. reflexivity. Qed.

(** ** The loop of GPpredict *)

Section Loop.
Variables (g : Globals.t) (x_new : R) (x_data : np.vec) (N : nat).
Hypothesis Hl : Globals.l g <> 0.
Hypothesis HN : (N <= length x_data)%nat.

Let kv : R -> R :=
  fun xi => kval (Globals.sigma_kernel g) (Globals.l g) (Globals.sigma_noise g) xi x_new.

Let body : nat -> np.ndarray2 -> M np.ndarray2 :=
  (fun i Kstar =>
     xi <- lift (np.getitem x_data i) ;;
     sk <- load Globals.sigma_kernel ;;
     ls <- load Globals.l ;;
     sn <- load Globals.sigma_noise ;;
     v <- lift (kernel xi x_new sk ls sn) ;;
     lift (np.setitem Kstar 0 i v))%M.

Lemma Kstar_loop (count start : nat) :
  (start + count = N)%nat ->
  for_loop start count body
           (np.mk2 1 N [map kv (firstn start x_data) ++ repeat 0 count]) g
  = (Ok (np.mk2 1 N [map kv (firstn N x_data)]), g).
Proof.
  revert start; induction count as [|c IH]; intros start Hs.
  - simpl. unfold ret. rewrite app_nil_r. replace start with N by lia. reflexivity.
  - simpl. unfold bind at 1. unfold body at 1.
    unfold bind, lift, load, np.getitem.
    rewrite (nth_error_nth_lt x_data start 0) by lia.
    rewrite kernel_ok by exact Hl.
    unfold np.setitem. simpl np.nrows. simpl np.ncols. simpl np.rows.
    replace (start <? N)%nat with true by (symmetry; apply Nat.ltb_lt; lia).
    simpl.
    assert (Hlen : length (map kv (firstn start x_data)) = start).
    { rewrite length_map, length_firstn. lia. }
    fold (kv (nth start x_data 0)).
    pose proof (upd_middle (map kv (firstn start x_data)) (repeat 0 c) 0
                           (kv (nth start x_data 0))) as Hu.
    rewrite Hlen in Hu. rewrite Hu. clear Hu.
    replace (map kv (firstn start x_data) ++ kv (nth start x_data 0) :: repeat 0 c)
      with (map kv (firstn (S start) x_data) ++ repeat 0 c).
    + apply IH. lia.
    + rewrite (firstn_snoc x_data start 0) by lia.
      rewrite map_app, <- app_assoc. reflexivity.
Qed.

Lemma Kstar_for_range :
  for_range N body (np.zeros 1 N) g = (Ok (np.mk2 1 N [map kv (firstn N x_data)]), g).
Proof. unfold for_range. apply (Kstar_loop N 0). lia. Qed.
End Loop.

(** ** What GPpredict computes *)

Lemma col0_T_row (v : np.vec) (n : nat) :
  length v = n -> np.col 0 (np.T (np.mk2 1 n [v])) = v.
Proof.
  intros Hn. unfold np.col, np.T. simpl. rewrite map_map. simpl.
  rewrite <- Hn. apply map_nth_seq.
Qed.

Lemma Kstar_of_length (sk l sn : R) (X : np.vec) (x_new : R) :
  length (Kstar_of sk l sn X x_new) = length X.
Proof. unfold Kstar_of. apply length_map. Qed.

(** With matching shapes and a non-zero length scale, [GPpredict] returns,
    leaves the globals alone, and its two results are the inner products
    below. *)
Lemma GPpredict_run (g : Globals.t) (x_new : R) (X Y : np.vec) (Kinv : np.ndarray2) :
  Globals.l g <> 0 ->
  length X = length Y ->
  np.nrows Kinv = length Y ->
  np.ncols Kinv = length Y ->
  let sk := Globals.sigma_kernel g in
  let l := Globals.l g in
  let sn := Globals.sigma_noise g in
  let Ks := Kstar_of sk l sn X x_new in
  let beta := np.vecmat Ks Kinv in
  GPpredict x_new X Y Kinv g
  = (Ok ([np.dot beta Y],
         np.mk2 1 1 [[kval sk l sn x_new x_new - np.dot beta Ks]]), g).
Proof.
  intros Hl HXY Hr Hc sk l sn Ks beta.
  unfold GPpredict. unfold bind at 1.
  rewrite Kstar_for_range by (auto; lia).
  rewrite <- HXY, firstn_all. fold sk l sn. fold (Kstar_of sk l sn X x_new). fold Ks.
  unfold bind, lift, load, ret.
  unfold np.matmul at 1. simpl np.ncols. simpl np.nrows. simpl np.rows.
  rewrite Hr, <- HXY, Nat.eqb_refl. simpl rbind.
  unfold np.matvec. simpl np.ncols. simpl np.rows.
  rewrite Hc, <- HXY, HXY, Nat.eqb_refl. fold beta.
  rewrite kernel_ok by exact Hl. fold sk l sn.
  unfold np.matmul at 1. simpl np.ncols. simpl np.nrows. simpl np.rows.
  rewrite Hr, Nat.eqb_refl. simpl rbind. fold beta.
  unfold np.matmul. simpl np.ncols. simpl np.nrows. simpl np.rows.
  rewrite Hc, <- HXY, Nat.eqb_refl.
  unfold np.rsub. simpl np.ncols. simpl np.nrows. simpl np.rows.
  unfold np.vecmat at 1. simpl np.ncols. simpl seq. simpl map.
  rewrite col0_T_row by apply Kstar_of_length.
  reflexivity.
Qed.

Lemma nth_map_lt {A B : Type} (f : A -> B) (a : list A) (i : nat) (d : B) (d' : A) :
  (i < length a)%nat -> nth i (map f a) d = f (nth i a d').
Proof.
  intros Hi. rewrite (nth_indep _ d (f d')) by (now rewrite length_map).
  apply map_nth.
Qed.

Lemma nth_col (A : np.ndarray2) (i j : nat) :
  (i < length (np.rows A))%nat -> nth i (np.col j A) 0 = np.entry A i j.
Proof.
  intros Hi. unfold np.col, np.entry.
  now rewrite (nth_map_lt (fun r => nth j r 0) (np.rows A) i 0 []).
Qed.

Lemma length_col (A : np.ndarray2) (j : nat) : length (np.col j A) = length (np.rows A).
Proof. unfold np.col. apply length_map. Qed.

Lemma nth_vecmat (v : np.vec) (B : np.ndarray2) (j : nat) :
  (j < np.ncols B)%nat -> nth j (np.vecmat v B) 0 = np.dot v (np.col j B).
Proof.
  intros Hj. unfold np.vecmat.
  now rewrite (nth_map_seq (fun c => np.dot v (np.col c B))).
Qed.

Lemma length_vecmat (v : np.vec) (B : np.ndarray2) : length (np.vecmat v B) = np.ncols B.
Proof. unfold np.vecmat. now rewrite length_map, length_seq. Qed.

(** Entry [j] of a row vector times a matrix, as a sum over the rows. *)
Lemma vecmat_entry_Rsum (v : np.vec) (B : np.ndarray2) (j : nat) :
  length (np.rows B) = length v -> (j < np.ncols B)%nat ->
  nth j (np.vecmat v B) 0
  = Rsum (length v) (fun i => nth i v 0 * np.entry B i j).
Proof.
  intros Hr Hj. rewrite nth_vecmat by exact Hj.
  rewrite (dot_Rsum v (np.col j B) (length v)); auto.
  - apply Rsum_ext. intros i Hi. rewrite nth_col by lia. reflexivity.
  - now rewrite length_col.
Qed.

Lemma nth_Kstar_of (sk l sn : R) (X : np.vec) (x_new : R) (i : nat) :
  (i < length X)%nat ->
  nth i (Kstar_of sk l sn X x_new) 0 = kval sk l sn (nth i X 0) x_new.
Proof.
  intros Hi. unfold Kstar_of.
  now rewrite (nth_map_lt (fun xi => kval sk l sn xi x_new) X i 0 0).
Qed.

(** The product [K* . Kinv . w] written with sums over the indices. *)
Lemma Kstar_Kinv_dot_Rsum (sk l sn : R) (X w : np.vec) (Kinv : np.ndarray2) (x_new : R) :
  np.wf Kinv -> np.nrows Kinv = length X -> np.ncols Kinv = length X ->
  length w = length X ->
  np.dot (np.vecmat (Kstar_of sk l sn X x_new) Kinv) w
  = Rsum (length X)
         (fun j => Rsum (length X)
                        (fun i => kval sk l sn (nth i X 0) x_new * np.entry Kinv i j)
                   * nth j w 0).
Proof.
  intros [Hwf _] Hr Hc Hw.
  rewrite (dot_Rsum _ w (length X)); auto.
  - apply Rsum_ext. intros j Hj. f_equal.
    rewrite vecmat_entry_Rsum; rewrite ?Kstar_of_length; try lia.
    apply Rsum_ext. intros i Hi. now rewrite nth_Kstar_of.
  - now rewrite length_vecmat.
Qed.

(** C1.  For a training set of [N] inputs and targets, a query point
    [x_new] and an [N]x[N] matrix [Kinv] (the shape an exact inverse of the
    Gram matrix has), [GPpredict] returns
    mean = K* . Kinv . y_data and
    variance = k(x_new, x_new) - K* . Kinv . K*^T,
    where K*[i] = k(x_data[i], x_new); the products are written out as sums
    over the indices.  The mean comes back as an array of shape (1,), the
    variance as one of shape (1,1), and the globals are left as they were. *)
Theorem GPpredict_mean_variance
        (g : Globals.t) (x_new : R) (x_data y_data : np.vec) (Kinv : np.ndarray2)
        (N : nat) :
  length x_data = N -> length y_data = N ->
  np.wf Kinv -> np.nrows Kinv = N -> np.ncols Kinv = N ->
  Globals.l g <> 0 ->
  let k := kval (Globals.sigma_kernel g) (Globals.l g) (Globals.sigma_noise g) in
  let Kstar := fun i => k (nth i x_data 0) x_new in
  let mean :=
      Rsum N (fun j => Rsum N (fun i => Kstar i * np.entry Kinv i j) * nth j y_data 0) in
  let variance :=
      k x_new x_new
      - Rsum N (fun j => Rsum N (fun i => Kstar i * np.entry Kinv i j) * Kstar j) in
  GPpredict x_new x_data y_data Kinv g
  = (Ok ([mean], np.mk2 1 1 [[variance]]), g).
Proof.
  intros HX HY Hwf Hr Hc Hl k Kstar mean variance.
  rewrite GPpredict_run by congruence.
  rewrite !Kstar_Kinv_dot_Rsum; rewrite ?Kstar_of_length; try congruence.
  unfold mean, variance, Kstar, k. rewrite HX.
  set (row := fun j => Rsum N (fun i =>
                kval (Globals.sigma_kernel g) (Globals.l g) (Globals.sigma_noise g)
                     (nth i x_data 0) x_new * np.entry Kinv i j)).
  assert (E : Rsum N (fun j => row j * nth j (Kstar_of (Globals.sigma_kernel g)
                         (Globals.l g) (Globals.sigma_noise g) x_data x_new) 0)
              = Rsum N (fun j => row j * kval (Globals.sigma_kernel g) (Globals.l g)
                         (Globals.sigma_noise g) (nth j x_data 0) x_new)).
  { apply Rsum_ext. intros j Hj. now rewrite nth_Kstar_of by lia. }
  unfold row in E. rewrite E. reflexivity.
Qed.

Lemma GPpredict_mean_variance_witness :
  let g := notebook_globals in
  let k := kval 3 1 (3 / 10) in
  let Kinv := np.mk2 2 2 [[1; 2]; [3; 4]] in
  let Kstar := fun i => k (nth i [1; 2] 0) 5 in
  GPpredict 5 [1; 2] [1; 4] Kinv g
  = (Ok ([Rsum 2 (fun j => Rsum 2 (fun i => Kstar i * np.entry Kinv i j)
                           * nth j [1; 4] 0)],
         np.mk2 1 1
           [[k 5 5 - Rsum 2 (fun j => Rsum 2 (fun i => Kstar i * np.entry Kinv i j)
                                      * Kstar j)]]), g).
Proof.
  apply (GPpredict_mean_variance notebook_globals 5 [1; 2] [1; 4]
           (np.mk2 2 2 [[1; 2]; [3; 4]]) 2); try reflexivity.
  - split; [reflexivity | repeat constructor].
  - simpl. lra.
Defined.

(** ** Purity of GPpredict *)

Lemma pure_ret {A : Type} (a : A) : pure_in_params (ret a).
Proof. intros g1 g2 _. cbn. auto. Qed.

Lemma pure_lift {A : Type} (r : result A) : pure_in_params (lift r).
Proof. intros g1 g2 _. cbn. auto. Qed.

Lemma pure_load_sigma_kernel : pure_in_params (load Globals.sigma_kernel).
Proof. intros g1 g2 (H & _ & _). cbn. rewrite H. auto. Qed.

Lemma pure_load_l : pure_in_params (load Globals.l).
Proof. intros g1 g2 (_ & H & _). cbn. rewrite H. auto. Qed.

Lemma pure_load_sigma_noise : pure_in_params (load Globals.sigma_noise).
Proof. intros g1 g2 (_ & _ & H). cbn. rewrite H. auto. Qed.

Lemma pure_bind {A B : Type} (m : M A) (f : A -> M B) :
  pure_in_params m -> (forall a, pure_in_params (f a)) -> pure_in_params (bind m f).
Proof.
  intros Hm Hf g1 g2 Hg. unfold bind.
  destruct (Hm g1 g2 Hg) as (Hv & H1 & H2).
  destruct (m g1) as [r1 g1'], (m g2) as [r2 g2']. simpl in *. subst.
  destruct r2 as [a|e]; [apply Hf; assumption | simpl; auto].
Qed.

Lemma pure_for_loop {A : Type} (body : nat -> A -> M A) (count start : nat) (acc : A) :
  (forall i a, pure_in_params (body i a)) ->
  pure_in_params (for_loop start count body acc).
Proof.
  intros Hb. revert start acc.
  induction count as [|c IH]; intros start acc; simpl.
  - apply pure_ret.
  - apply pure_bind; [apply Hb | intros a; apply IH].
Qed.

Create HintDb purity.

#[local] Hint Resolve pure_ret pure_lift pure_load_sigma_kernel pure_load_l
  pure_load_sigma_noise : purity.

Ltac purity :=
  repeat first
    [ apply pure_bind; [ | intro ]
    | apply pure_for_loop; intros
    | solve [auto with purity] ].

(** C9.  [GPpredict] is a deterministic function of its arguments and of
    the three kernel parameters it reads from the globals: in two global
    scopes that agree on [sigma_kernel], [l] and [sigma_noise], and differ
    anywhere else, the same arguments give the same result (the same pair
    (mean, variance), or the same exception), and no global is modified. *)
Theorem GPpredict_pure
        (x_new : R) (x_data y_data : np.vec) (Kinv : np.ndarray2) (g1 g2 : Globals.t) :
  Globals.same_params g1 g2 ->
  fst (GPpredict x_new x_data y_data Kinv g1)
  = fst (GPpredict x_new x_data y_data Kinv g2)
  /\ snd (GPpredict x_new x_data y_data Kinv g1) = g1
  /\ snd (GPpredict x_new x_data y_data Kinv g2) = g2.
Proof.
  revert g1 g2. change (pure_in_params (GPpredict x_new x_data y_data Kinv)).
  unfold GPpredict, for_range. purity.
Qed.

Lemma GPpredict_pure_witness :
  Globals.same_params notebook_globals other_globals
  /\ fst (GPpredict 5 [1; 2] [1; 4] (np.eye 2) notebook_globals)
     = fst (GPpredict 5 [1; 2] [1; 4] (np.eye 2) other_globals)
  /\ snd (GPpredict 5 [1; 2] [1; 4] (np.eye 2) notebook_globals) = notebook_globals
  /\ snd (GPpredict 5 [1; 2] [1; 4] (np.eye 2) other_globals) = other_globals.
Proof.
  assert (H : Globals.same_params notebook_globals other_globals)
    by (repeat split; reflexivity).
  split; [exact H|].
  exact (GPpredict_pure 5 [1; 2] [1; 4] (np.eye 2) notebook_globals other_globals H).
Defined.

(** ** The Gram matrix *)

Lemma sequence_map_Ok {A B : Type} (f : A -> B) (a : list A) :
  sequence (map (fun t => Ok (f t)) a) = Ok (map f a).
Proof. induction a as [|h a IH]; simpl; [reflexivity | now rewrite IH]. Qed.

Lemma map_ext_in_result {A B : Type} (f h : A -> B) (a : list A) :
  (forall t, f t = h t) -> map f a = map h a.
Proof. intros H. apply map_ext. exact H. Qed.

(** [compute_K] returns exactly when [0 < l] and the training set is not
    empty, and then it is the table of kernel values. *)
Lemma compute_K_ok (X : np.vec) (sk l sn : R) :
  0 < l -> X <> [] -> compute_K X sk l sn = Ok (Gram sk l sn X).
Proof.
  intros Hl HX. unfold compute_K.
  destruct (Rle_dec l 0) as [Hle|_]; [lra|].
  destruct X as [|h t]; [contradiction|]. simpl Nat.eqb. cbv iota.
  rewrite (map_ext_in_result _ (fun xi => Ok (map (fun xj => kval sk l sn xi xj) (h :: t)))).
  - rewrite sequence_map_Ok. reflexivity.
  - intros xi.
    rewrite (map_ext_in_result _ (fun xj => Ok (kval sk l sn xi xj))).
    + apply sequence_map_Ok.
    + intros xj. apply kernel_ok. lra.
Qed.

Lemma compute_K_inv (X : np.vec) (sk l sn : R) (K : np.ndarray2) :
  compute_K X sk l sn = Ok K -> 0 < l /\ X <> [] /\ K = Gram sk l sn X.
Proof.
  intros H. unfold compute_K in H.
  destruct (Rle_dec l 0) as [Hle|Hl]; [discriminate|].
  assert (Hl' : 0 < l) by lra.
  destruct X as [|h t]; [discriminate|].
  assert (HX : h :: t <> []) by discriminate.
  split; [exact Hl'|]. split; [exact HX|].
  pose proof (compute_K_ok (h :: t) sk l sn Hl' HX) as E.
  unfold compute_K in E.
  destruct (Rle_dec l 0); [lra|]. simpl Nat.eqb in *. cbv iota in *.
  congruence.
Qed.

Lemma Gram_wf (sk l sn : R) (X : np.vec) : np.wf (Gram sk l sn X).
Proof.
  split; simpl.
  - apply length_map.
  - apply Forall_forall. intros r Hr. apply in_map_iff in Hr.
    destruct Hr as (xi & <- & _). apply length_map.
Qed.

Lemma Gram_row (sk l sn : R) (X : np.vec) (i : nat) :
  (i < length X)%nat ->
  nth i (np.rows (Gram sk l sn X)) []
  = map (fun xj => kval sk l sn (nth i X 0) xj) X.
Proof.
  intros Hi. unfold Gram. cbn [np.rows].
  now rewrite (nth_map_lt (fun xi => map (fun xj => kval sk l sn xi xj) X) X i [] 0).
Qed.

Lemma Gram_entry (sk l sn : R) (X : np.vec) (i j : nat) :
  (i < length X)%nat -> (j < length X)%nat ->
  np.entry (Gram sk l sn X) i j = kval sk l sn (nth i X 0) (nth j X 0).
Proof.
  intros Hi Hj. unfold np.entry. rewrite Gram_row by exact Hi.
  now rewrite (nth_map_lt (fun xj => kval sk l sn (nth i X 0) xj) X j 0 0).
Qed.

Lemma Gram_col (sk l sn : R) (X : np.vec) (j : nat) :
  (j < length X)%nat ->
  np.col j (Gram sk l sn X) = map (fun xi => kval sk l sn xi (nth j X 0)) X.
Proof.
  intros Hj. unfold np.col, Gram. cbn [np.rows]. rewrite map_map.
  apply map_ext. intros xi.
  now rewrite (nth_map_lt (fun xj => kval sk l sn xi xj) X j 0 0).
Qed.

(** C2.  Entry (i,j) of the matrix built by [compute_K] is
    sigma_k^2 * exp(-(x_i - x_j)^2 / (2 l^2)), plus sigma_n exactly when the
    two inputs [x_i] and [x_j] are equal as numbers, whatever the indices. *)
Theorem compute_K_entry
        (X : np.vec) (sigma_kernel l sigma_noise : R) (K : np.ndarray2) (i j : nat) :
  compute_K X sigma_kernel l sigma_noise = Ok K ->
  (i < length X)%nat -> (j < length X)%nat ->
  let xi := nth i X 0 in
  let xj := nth j X 0 in
  np.entry K i j
  = sigma_kernel ^ 2 * exp (- (xi - xj) ^ 2 / (2 * l ^ 2))
    + (if Req_dec_T xi xj then sigma_noise else 0).
Proof.
  intros HK Hi Hj xi xj.
  apply compute_K_inv in HK. destruct HK as (_ & _ & ->).
  rewrite Gram_entry by assumption. fold xi xj. unfold kval, Req_bool, R_of_bool.
  replace (2 * l ^ 2) with (2 * l * l) by ring.
  destruct (Req_dec_T xi xj); ring.
Qed.

Lemma compute_K_entry_witness :
  compute_K [1; 2; 1] 3 1 (3 / 10) = Ok (Gram 3 1 (3 / 10) [1; 2; 1])
  /\ np.entry (Gram 3 1 (3 / 10) [1; 2; 1]) 0 2
     = 3 ^ 2 * exp (- (1 - 1) ^ 2 / (2 * 1 ^ 2))
       + (if Req_dec_T 1 1 then 3 / 10 else 0).
Proof.
  assert (H : compute_K [1; 2; 1] 3 1 (3 / 10) = Ok (Gram 3 1 (3 / 10) [1; 2; 1])).
  { apply compute_K_ok; [lra | discriminate]. }
  split; [exact H|].
  apply (compute_K_entry [1; 2; 1] 3 1 (3 / 10) (Gram 3 1 (3 / 10) [1; 2; 1]) 0 2 H);
    simpl; lia.
Defined.

(** C3.  [compute_K] raises [InvalidParameter] whenever the length scale is
    not positive or the training set is empty; the check comes first, so for
    [l = 0] the division by zero in the kernel is never reached.  For [l > 0],
    [sigma_kernel >= 0], [sigma_noise >= 0] and at least one input it
    returns a matrix. *)
Theorem compute_K_InvalidParameter (X : np.vec) (sigma_kernel l sigma_noise : R) :
  (l <= 0 \/ X = [] -> compute_K X sigma_kernel l sigma_noise = Raise InvalidParameter)
  /\ (0 < l -> 0 <= sigma_kernel -> 0 <= sigma_noise -> (1 <= length X)%nat ->
      exists K, compute_K X sigma_kernel l sigma_noise = Ok K).
Proof.
  split.
  - intros [Hl | ->]; unfold compute_K.
    + destruct (Rle_dec l 0); [reflexivity | contradiction].
    + destruct (Rle_dec l 0); reflexivity.
  - intros Hl _ _ HN. exists (Gram sigma_kernel l sigma_noise X).
    apply compute_K_ok; [exact Hl|]. destruct X; [simpl in HN; lia | discriminate].
Qed.

Lemma compute_K_InvalidParameter_witness :
  compute_K [1; 2] 3 0 (3 / 10) = Raise InvalidParameter
  /\ compute_K [] 3 1 (3 / 10) = Raise InvalidParameter
  /\ exists K, compute_K [1; 2] 3 1 (3 / 10) = Ok K.
Proof.
  split; [|split].
  - apply (proj1 (compute_K_InvalidParameter [1; 2] 3 0 (3 / 10))). left. lra.
  - apply (proj1 (compute_K_InvalidParameter [] 3 1 (3 / 10))). right. reflexivity.
  - apply (proj2 (compute_K_InvalidParameter [1; 2] 3 1 (3 / 10))); simpl; try lra; lia.
Defined.

Lemma Gram_entry_outside (sk l sn : R) (X : np.vec) (i j : nat) :
  (length X <= i)%nat \/ (length X <= j)%nat -> np.entry (Gram sk l sn X) i j = 0.
Proof.
  intros H. unfold np.entry.
  destruct (Nat.lt_ge_cases i (length X)) as [Hi|Hi].
  - rewrite Gram_row by exact Hi. apply nth_overflow. rewrite length_map. lia.
  - rewrite (nth_overflow (np.rows (Gram sk l sn X))).
    + now destruct j.
    + unfold Gram. cbn [np.rows]. now rewrite length_map.
Qed.

Lemma Gram_symmetric (sk l sn : R) (X : np.vec) (i j : nat) :
  np.entry (Gram sk l sn X) i j = np.entry (Gram sk l sn X) j i.
Proof.
  destruct (Nat.lt_ge_cases i (length X)) as [Hi|Hi];
    destruct (Nat.lt_ge_cases j (length X)) as [Hj|Hj].
  - rewrite !Gram_entry by assumption. apply kval_comm.
  - rewrite !Gram_entry_outside by auto. reflexivity.
  - rewrite !Gram_entry_outside by auto. reflexivity.
  - rewrite !Gram_entry_outside by auto. reflexivity.
Qed.

(** C4.  The kernel is symmetric in its two inputs for every choice of
    parameters (when it raises, it raises for both orders), and every matrix
    [compute_K] returns satisfies K[i][j] = K[j][i] for all i and j. *)
Theorem kernel_symmetric_Gram_symmetric :
  (forall x x' sigma_kernel l sigma_noise : R,
      kernel x x' sigma_kernel l sigma_noise = kernel x' x sigma_kernel l sigma_noise)
  /\ (forall (X : np.vec) (sigma_kernel l sigma_noise : R) (K : np.ndarray2) (i j : nat),
         compute_K X sigma_kernel l sigma_noise = Ok K ->
         np.entry K i j = np.entry K j i).
Proof.
  split.
  - intros. apply kernel_comm.
  - intros X sk l sn K i j HK.
    apply compute_K_inv in HK. destruct HK as (_ & _ & ->). apply Gram_symmetric.
Qed.

Lemma kernel_symmetric_Gram_symmetric_witness :
  kernel 1 2 3 1 (3 / 10) = kernel 2 1 3 1 (3 / 10)
  /\ compute_K [1; 2; 4] 3 1 (3 / 10) = Ok (Gram 3 1 (3 / 10) [1; 2; 4])
  /\ np.entry (Gram 3 1 (3 / 10) [1; 2; 4]) 0 2
     = np.entry (Gram 3 1 (3 / 10) [1; 2; 4]) 2 0.
Proof.
  assert (H : compute_K [1; 2; 4] 3 1 (3 / 10) = Ok (Gram 3 1 (3 / 10) [1; 2; 4])).
  { apply compute_K_ok; [lra | discriminate]. }
  split; [|split].
  - apply (proj1 kernel_symmetric_Gram_symmetric).
  - exact H.
  - exact (proj2 kernel_symmetric_Gram_symmetric [1; 2; 4] 3 1 (3 / 10) _ 0%nat 2%nat H).
Defined.

(** C10.  At identical arguments the equality test of the kernel holds, so
    for a non-zero length scale k(x,x) = sigma_k^2 + sigma_n; and the
    variance [GPpredict] returns is (sigma_k^2 + sigma_n) - K* . Kinv . K*^T
    at every query point: the prior-variance term always carries the noise
    term. *)
Theorem kernel_diagonal_has_noise :
  (forall x sigma_kernel l sigma_noise : R,
      l <> 0 ->
      Req_bool x x = true
      /\ kernel x x sigma_kernel l sigma_noise = Ok (sigma_kernel ^ 2 + sigma_noise))
  /\ (forall (g : Globals.t) (x_new : R) (x_data y_data : np.vec) (Kinv : np.ndarray2),
         Globals.l g <> 0 ->
         length x_data = length y_data ->
         np.nrows Kinv = length y_data -> np.ncols Kinv = length y_data ->
         let Ks := Kstar_of (Globals.sigma_kernel g) (Globals.l g) (Globals.sigma_noise g)
                            x_data x_new in
         exists mu : R,
           GPpredict x_new x_data y_data Kinv g
           = (Ok ([mu],
                  np.mk2 1 1 [[(Globals.sigma_kernel g ^ 2 + Globals.sigma_noise g)
                               - np.dot (np.vecmat Ks Kinv) Ks]]), g)).
Proof.
  split.
  - intros x sk l sn Hl. split; [apply Req_bool_refl|].
    rewrite kernel_ok by exact Hl. rewrite kval_diag. f_equal. ring.
  - intros g x_new X Y Kinv Hl HXY Hr Hc Ks.
    eexists. rewrite GPpredict_run by assumption.
    rewrite kval_diag. fold Ks.
    replace (Globals.sigma_kernel g * Globals.sigma_kernel g)
      with (Globals.sigma_kernel g ^ 2) by ring.
    reflexivity.
Qed.

Lemma kernel_diagonal_has_noise_witness :
  kernel 5 5 3 1 (3 / 10) = Ok (3 ^ 2 + 3 / 10)
  /\ exists mu : R,
      GPpredict 5 [1; 2] [1; 4] (np.eye 2) notebook_globals
      = (Ok ([mu],
             np.mk2 1 1
               [[(3 ^ 2 + 3 / 10)
                 - np.dot (np.vecmat (Kstar_of 3 1 (3 / 10) [1; 2] 5) (np.eye 2))
                          (Kstar_of 3 1 (3 / 10) [1; 2] 5)]]), notebook_globals).
Proof.
  split.
  - apply (proj1 kernel_diagonal_has_noise 5 3 1 (3 / 10)). lra.
  - apply (proj2 kernel_diagonal_has_noise notebook_globals 5 [1; 2] [1; 4] (np.eye 2));
      try reflexivity.
    simpl. lra.
Defined.

(** ** Prediction at a training point *)

Lemma matmul_inv (A B C : np.ndarray2) :
  np.matmul A B = Ok C ->
  np.ncols A = np.nrows B /\ np.nrows C = np.nrows A /\ np.ncols C = np.ncols B
  /\ np.rows C = map (fun r => np.vecmat r B) (np.rows A).
Proof.
  unfold np.matmul. destruct (Nat.eqb_spec (np.ncols A) (np.nrows B)) as [E|E];
    [|discriminate].
  intros H. injection H as <-. simpl. auto.
Qed.

Lemma inverse_of_shape (K Kinv : np.ndarray2) :
  np.inverse_of K Kinv ->
  np.ncols K = np.nrows K /\ np.nrows Kinv = np.nrows K /\ np.ncols Kinv = np.nrows K.
Proof.
  intros (_ & _ & H1 & H2).
  apply matmul_inv in H1. apply matmul_inv in H2. simpl in *. lia.
Qed.

(** Row [j] of the identity. *)
Lemma eye_row (n j : nat) :
  (j < n)%nat ->
  nth j (np.rows (np.eye n)) [] = map (fun c => if (j =? c)%nat then 1 else 0) (seq 0 n).
Proof.
  intros Hj. unfold np.eye. cbn [np.rows].
  now rewrite (nth_map_seq
                 (fun i => map (fun c => if (i =? c)%nat then 1 else 0) (seq 0 n))).
Qed.

Lemma dot_unit_l (n j : nat) (v : np.vec) :
  length v = n -> (j < n)%nat ->
  np.dot (map (fun c => if (j =? c)%nat then 1 else 0) (seq 0 n)) v = nth j v 0.
Proof.
  intros Hv Hj.
  rewrite (dot_Rsum _ v n); auto.
  - rewrite <- (Rsum_delta n j (fun i => nth i v 0)) by exact Hj.
    apply Rsum_ext. intros i Hi.
    now rewrite (nth_map_seq (fun c => if (j =? c)%nat then 1 else 0)).
  - now rewrite length_map, length_seq.
Qed.

(** Row [j] of a product is row [j] of the left factor times the right one. *)
Lemma matmul_row (A B C : np.ndarray2) (j : nat) :
  np.matmul A B = Ok C -> (j < length (np.rows A))%nat ->
  np.vecmat (nth j (np.rows A) []) B = nth j (np.rows C) [].
Proof.
  intros H Hj. apply matmul_inv in H. destruct H as (_ & _ & _ & ->).
  now rewrite (nth_map_lt (fun r => np.vecmat r B) (np.rows A) j [] []).
Qed.

(** The cross-covariance vector of a training input is its row of the Gram
    matrix. *)
Lemma Kstar_of_training_point (sk l sn : R) (X : np.vec) (j : nat) :
  (j < length X)%nat ->
  Kstar_of sk l sn X (nth j X 0) = nth j (np.rows (Gram sk l sn X)) [].
Proof.
  intros Hj. rewrite Gram_row by exact Hj. unfold Kstar_of.
  apply map_ext. intros xi. apply kval_comm.
Qed.

(** With the exact inverse of the Gram matrix, the prediction at a training
    input is that input's target, with variance zero. *)
Lemma GPpredict_at_training_point
      (g : Globals.t) (X Y : np.vec) (Kinv : np.ndarray2) (j : nat) :
  Globals.l g <> 0 ->
  length X = length Y ->
  np.inverse_of
    (Gram (Globals.sigma_kernel g) (Globals.l g) (Globals.sigma_noise g) X) Kinv ->
  (j < length X)%nat ->
  GPpredict (nth j X 0) X Y Kinv g = (Ok ([nth j Y 0], np.mk2 1 1 [[0]]), g).
Proof.
  intros Hl HXY Hinv Hj.
  destruct (inverse_of_shape _ _ Hinv) as (_ & Hr & Hc).
  destruct Hinv as (_ & _ & Hmul & _).
  cbn [Gram np.nrows] in Hr, Hc, Hmul.
  rewrite GPpredict_run by congruence.
  rewrite Kstar_of_training_point by exact Hj.
  rewrite (matmul_row _ _ _ j Hmul)
    by (unfold Gram; cbn [np.rows]; now rewrite length_map).
  rewrite eye_row by exact Hj.
  rewrite !dot_unit_l; auto.
  - rewrite Gram_row by exact Hj.
    rewrite (nth_map_lt (fun xj => kval (Globals.sigma_kernel g) (Globals.l g)
                                       (Globals.sigma_noise g) (nth j X 0) xj) X j 0 0)
      by exact Hj.
    now rewrite Rminus_diag.
  - rewrite Gram_row by exact Hj. apply length_map.
Qed.

(** C7.  With a noise-free kernel ([sigma_noise = 0]) and the exact inverse
    of the Gram matrix, [GPpredict] at a query point that is a training input
    returns that input's target as mean and 0 as variance; in particular, for
    a training set of size one, the prediction at the training point is the
    single target with variance 0. *)
Theorem GPpredict_noise_free_training_point :
  (forall (g : Globals.t) (X Y : np.vec) (K Kinv : np.ndarray2) (j : nat),
      Globals.sigma_noise g = 0 ->
      length X = length Y ->
      compute_K X (Globals.sigma_kernel g) (Globals.l g) (Globals.sigma_noise g) = Ok K ->
      np.inverse_of K Kinv ->
      (j < length X)%nat ->
      GPpredict (nth j X 0) X Y Kinv g = (Ok ([nth j Y 0], np.mk2 1 1 [[0]]), g))
  /\ (forall (g : Globals.t) (x y : R) (K Kinv : np.ndarray2),
         Globals.sigma_noise g = 0 ->
         compute_K [x] (Globals.sigma_kernel g) (Globals.l g) (Globals.sigma_noise g)
         = Ok K ->
         np.inverse_of K Kinv ->
         GPpredict x [x] [y] Kinv g = (Ok ([y], np.mk2 1 1 [[0]]), g)).
Proof.
  assert (G : forall (g : Globals.t) (X Y : np.vec) (K Kinv : np.ndarray2) (j : nat),
             length X = length Y ->
             compute_K X (Globals.sigma_kernel g) (Globals.l g) (Globals.sigma_noise g)
             = Ok K ->
             np.inverse_of K Kinv ->
             (j < length X)%nat ->
             GPpredict (nth j X 0) X Y Kinv g = (Ok ([nth j Y 0], np.mk2 1 1 [[0]]), g)).
  { intros g X Y K Kinv j HXY HK Hinv Hj.
    apply compute_K_inv in HK. destruct HK as (Hl & _ & ->).
    apply GPpredict_at_training_point; auto. lra. }
  split.
  - intros g X Y K Kinv j _. apply G.
  - intros g x y K Kinv _ HK Hinv.
    apply (G g [x] [y] K Kinv 0%nat); auto.
Qed.

Lemma inverse_1x1 (a : R) :
  a <> 0 -> np.inverse_of (np.mk2 1 1 [[a]]) (np.mk2 1 1 [[1 / a]]).
Proof.
  intros Ha. unfold np.inverse_of, np.wf, np.matmul, np.vecmat, np.col, np.eye. cbn.
  repeat split; try (repeat constructor); do 4 f_equal; field; exact Ha.
Qed.

Lemma GPpredict_noise_free_training_point_witness :
  GPpredict 2 [2] [5] (np.mk2 1 1 [[1 / (1 * 1 + 0)]]) noise_free_globals
  = (Ok ([5], np.mk2 1 1 [[0]]), noise_free_globals).
Proof.
  apply (proj1 GPpredict_noise_free_training_point noise_free_globals [2] [5]
               (Gram 1 1 0 [2]) (np.mk2 1 1 [[1 / (1 * 1 + 0)]]) 0%nat).
  - reflexivity.
  - reflexivity.
  - apply compute_K_ok; [simpl; lra | discriminate].
  - unfold Gram. cbn [map length]. rewrite kval_diag. apply inverse_1x1. lra.
  - simpl. lia.
Defined.

(** ** The scenario X = [1,2,3], Y = [1,4,9] *)

Lemma toeplitz3_inverse (a b c : R) :
  toeplitz3_det a b c <> 0 ->
  np.inverse_of (toeplitz3 a b c) (toeplitz3_inv a b c).
Proof.
  intros Hd.
  unfold np.inverse_of, np.wf, np.matmul, np.vecmat, np.col, np.eye,
    toeplitz3, toeplitz3_inv.
  cbn.
  repeat split; try (repeat constructor); do 2 f_equal;
    repeat match goal with
           | |- _ :: _ = _ :: _ => f_equal
           | |- @eq R _ _ => unfold toeplitz3_det in *; field; exact Hd
           end.
Qed.

Lemma exp_half_bounds : 0 < exp (- (1 / 2)) < 1.
Proof.
  split; [apply exp_pos|].
  assert (H : exp (- (1 / 2)) < exp 0) by (apply exp_increasing; lra).
  now rewrite exp_0 in H.
Qed.

Lemma exp_minus_2 : exp (- 2) = exp (- (1 / 2)) ^ 4.
Proof.
  replace (- 2) with (- (1 / 2) + (- (1 / 2) + (- (1 / 2) + - (1 / 2)))) by lra.
  rewrite !exp_plus. ring.
Qed.

Lemma kval_scenario_off (x1 x2 d : R) :
  x1 <> x2 -> (x1 - x2) ^ 2 = d ->
  kval 3 1 scenario_noise x1 x2 = 9 * exp (- (d / 2)).
Proof.
  intros Hne Hd. unfold kval. rewrite Req_bool_neq by exact Hne. rewrite Hd.
  unfold R_of_bool. replace (- d / (2 * 1 * 1)) with (- (d / 2)) by field. ring.
Qed.

Lemma Gram_scenario :
  Gram 3 1 scenario_noise [1; 2; 3]
  = toeplitz3 (3 * 3 + scenario_noise) (9 * exp (- (1 / 2))) (9 * exp (- 2)).
Proof.
  unfold Gram, toeplitz3. cbn [map length].
  rewrite !kval_diag.
  rewrite (kval_scenario_off 1 2 1), (kval_scenario_off 2 1 1),
    (kval_scenario_off 2 3 1), (kval_scenario_off 3 2 1),
    (kval_scenario_off 1 3 4), (kval_scenario_off 3 1 4) by lra.
  replace (4 / 2) with 2 by lra. reflexivity.
Qed.

Lemma scenario_det_pos :
  0 < toeplitz3_det (3 * 3 + scenario_noise) (9 * exp (- (1 / 2))) (9 * exp (- 2)).
Proof.
  rewrite exp_minus_2. pose proof exp_half_bounds as [Hu0 Hu1].
  set (u := exp (- (1 / 2))) in *.
  unfold toeplitz3_det, scenario_noise.
  set (a := 3 * 3 + 1 / 1000000).
  assert (Ha : 9 < a) by (unfold a; lra).
  assert (Hu2 : 0 < u ^ 2 < 1) by nra.
  set (w := u ^ 2) in *.
  replace (a * a * a - 2 * a * (9 * u) * (9 * u) + 2 * (9 * u) * (9 * u) * (9 * u ^ 4)
           - a * (9 * u ^ 4) * (9 * u ^ 4))
    with ((a - 9 * w ^ 2) * (a * a + 9 * a * w ^ 2 - 162 * w))
    by (unfold w; ring).
  apply Rmult_lt_0_compat.
  - nra.
  - assert (0 <= 81 * (1 - w) ^ 2) by nra.
    nra.
Qed.

Lemma scenario_inverse :
  np.inverse_of (Gram 3 1 scenario_noise [1; 2; 3]) scenario_Kinv.
Proof.
  rewrite Gram_scenario. apply toeplitz3_inverse.
  pose proof scenario_det_pos. lra.
Qed.

(** C5.  For X = [1,2,3], Y = [1,4,9], sigma_kernel = 3, l = 1,
    sigma_noise = 1e-6 and [Kinv] the exact inverse of the Gram matrix,
    [GPpredict] at 2 returns mean 4 and variance 0 in exact arithmetic: the
    mean is within every positive tolerance of 4 and the variance is below
    the noise floor 1e-6. *)
Theorem GPpredict_scenario (g : Globals.t) (K Kinv : np.ndarray2) :
  Globals.sigma_kernel g = 3 -> Globals.l g = 1 -> Globals.sigma_noise g = 1 / 1000000 ->
  compute_K [1; 2; 3] 3 1 (1 / 1000000) = Ok K ->
  np.inverse_of K Kinv ->
  exists mean variance : R,
    GPpredict 2 [1; 2; 3] [1; 4; 9] Kinv g
    = (Ok ([mean], np.mk2 1 1 [[variance]]), g)
    /\ mean = 4 /\ variance = 0
    /\ (forall tol, 0 < tol -> Rabs (mean - 4) < tol)
    /\ Rabs variance <= 1 / 1000000.
Proof.
  intros Hsk Hl Hsn HK Hinv.
  apply compute_K_inv in HK. destruct HK as (_ & _ & ->).
  exists 4, 0. split; [|split; [reflexivity|split; [reflexivity|split]]].
  - apply (GPpredict_at_training_point g [1; 2; 3] [1; 4; 9] Kinv 1).
    + rewrite Hl. lra.
    + reflexivity.
    + now rewrite Hsk, Hl, Hsn.
    + simpl. lia.
  - intros tol Htol. rewrite Rminus_diag, Rabs_R0. exact Htol.
  - rewrite Rabs_R0. lra.
Qed.

Lemma GPpredict_scenario_witness :
  compute_K [1; 2; 3] 3 1 (1 / 1000000) = Ok (Gram 3 1 scenario_noise [1; 2; 3])
  /\ np.inverse_of (Gram 3 1 scenario_noise [1; 2; 3]) scenario_Kinv
  /\ exists mean variance : R,
      GPpredict 2 [1; 2; 3] [1; 4; 9] scenario_Kinv scenario_globals
      = (Ok ([mean], np.mk2 1 1 [[variance]]), scenario_globals)
      /\ mean = 4 /\ variance = 0
      /\ (forall tol, 0 < tol -> Rabs (mean - 4) < tol)
      /\ Rabs variance <= 1 / 1000000.
Proof.
  assert (HK : compute_K [1; 2; 3] 3 1 (1 / 1000000)
               = Ok (Gram 3 1 scenario_noise [1; 2; 3])).
  { apply compute_K_ok; [lra | discriminate]. }
  split; [exact HK|]. split; [exact scenario_inverse|].
  exact (GPpredict_scenario scenario_globals (Gram 3 1 scenario_noise [1; 2; 3])
           scenario_Kinv eq_refl eq_refl eq_refl HK scenario_inverse).
Defined.

(** ** Far from the training inputs *)

Lemma Rlist_sum_abs_nonneg (v : list R) : 0 <= Rlist_sum (map Rabs v).
Proof.
  induction v as [|b v IH]; simpl; [lra|]. pose proof (Rabs_pos b). lra.
Qed.

Lemma dot_bound (u v : list R) (d : R) :
  0 <= d -> Forall (fun a => Rabs a <= d) u ->
  Rabs (np.dot u v) <= d * Rlist_sum (map Rabs v).
Proof.
  intros Hd Hu. revert v. induction Hu as [|a u Ha Hu IH]; intros v.
  - simpl. rewrite Rabs_R0. pose proof (Rlist_sum_abs_nonneg v). nra.
  - destruct v as [|b v]; simpl.
    + rewrite Rabs_R0. lra.
    + specialize (IH v).
      pose proof (Rabs_triang (a * b) (np.dot u v)) as Ht.
      rewrite Rabs_mult in Ht. pose proof (Rabs_pos b). nra.
Qed.

Lemma Rlist_sum_abs_bound (u : list R) (d : R) :
  Forall (fun a => Rabs a <= d) u -> Rlist_sum (map Rabs u) <= d * INR (length u).
Proof.
  induction 1 as [|a u Ha Hu IH].
  - simpl. lra.
  - change (length (a :: u)) with (S (length u)). rewrite S_INR. simpl. lra.
Qed.

Lemma Rlist_sum_In_le {A : Type} (f : A -> R) (a : list A) (t : A) :
  (forall s, 0 <= f s) -> In t a -> f t <= Rlist_sum (map f a).
Proof.
  intros Hf. induction a as [|h a IH]; simpl; [tauto|].
  assert (0 <= Rlist_sum (map f a)).
  { clear IH. induction a as [|h' a IH]; simpl; [lra|]. pose proof (Hf h'). lra. }
  intros [->|Hin]; [lra|]. specialize (IH Hin). pose proof (Hf h). lra.
Qed.

(** A bound on every entry of [v . B] from a bound on the entries of [v]. *)
Lemma vecmat_bound (v : list R) (B : np.ndarray2) (d : R) :
  0 <= d -> Forall (fun a => Rabs a <= d) v ->
  Forall (fun b => Rabs b
                   <= d * Rlist_sum (map (fun j => Rlist_sum (map Rabs (np.col j B)))
                                         (seq 0 (np.ncols B))))
         (np.vecmat v B).
Proof.
  intros Hd Hv. unfold np.vecmat. apply Forall_forall. intros b Hb.
  apply in_map_iff in Hb. destruct Hb as (j & <- & Hj).
  apply Rle_trans with (d * Rlist_sum (map Rabs (np.col j B))).
  - now apply dot_bound.
  - apply Rmult_le_compat_l; [exact Hd|].
    apply (Rlist_sum_In_le (fun j => Rlist_sum (map Rabs (np.col j B)))); [|exact Hj].
    intros s. apply Rlist_sum_abs_nonneg.
Qed.

(** When every cross-covariance is at most [delta <= 1] in absolute value,
    the mean and the correction of the variance are at most [delta] times a
    constant of the training data. *)
Lemma posterior_small (Ks Y : list R) (Kinv : np.ndarray2) (delta : R) :
  0 <= delta <= 1 -> Forall (fun a => Rabs a <= delta) Ks ->
  let B := Rlist_sum (map (fun j => Rlist_sum (map Rabs (np.col j Kinv)))
                          (seq 0 (np.ncols Kinv))) in
  Rabs (np.dot (np.vecmat Ks Kinv) Y) <= delta * (B * Rlist_sum (map Rabs Y))
  /\ Rabs (np.dot (np.vecmat Ks Kinv) Ks) <= delta * (B * INR (length Ks)).
Proof.
  intros [Hd0 Hd1] HKs B.
  assert (HB : 0 <= B).
  { unfold B. clear. induction (seq 0 (np.ncols Kinv)) as [|j s IH]; simpl; [lra|].
    pose proof (Rlist_sum_abs_nonneg (np.col j Kinv)). lra. }
  pose proof (vecmat_bound Ks Kinv delta Hd0 HKs) as Hb. fold B in Hb.
  assert (HdB : 0 <= delta * B) by nra.
  split.
  - pose proof (dot_bound (np.vecmat Ks Kinv) Y (delta * B) HdB Hb). nra.
  - pose proof (dot_bound (np.vecmat Ks Kinv) Ks (delta * B) HdB Hb) as H1.
    pose proof (Rlist_sum_abs_bound Ks delta HKs) as H2.
    pose proof (Rlist_sum_abs_nonneg Ks) as H3.
    pose proof (pos_INR (length Ks)) as H4.
    apply Rle_trans with (delta * B * (delta * INR (length Ks))).
    + apply Rle_trans with (delta * B * Rlist_sum (map Rabs Ks)); [exact H1|].
      now apply Rmult_le_compat_l.
    + assert (HBN : 0 <= B * INR (length Ks)) by now apply Rmult_le_pos.
      replace (delta * B * (delta * INR (length Ks)))
        with (delta * (delta * (B * INR (length Ks)))) by ring.
      apply Rmult_le_compat_l; [exact Hd0|]. nra.
Qed.

(** Off the diagonal the kernel is the squared exponential alone, and it
    decays with the distance. *)
Lemma kval_far (sk l sn xi x_new D : R) :
  l <> 0 -> 0 < D -> D <= Rabs (x_new - xi) ->
  Rabs (kval sk l sn xi x_new) <= sk * sk * (2 * l * l) / (D * D).
Proof.
  intros Hl HD Hfar.
  assert (Hne : xi <> x_new).
  { intros ->. rewrite Rminus_diag, Rabs_R0 in Hfar. lra. }
  unfold kval. rewrite Req_bool_neq by exact Hne. unfold R_of_bool.
  rewrite Rmult_0_r, Rplus_0_r.
  assert (Hll : 0 < 2 * l * l) by nra.
  assert (Hsq : D * D <= (xi - x_new) ^ 2).
  { replace ((xi - x_new) ^ 2) with (Rabs (x_new - xi) * Rabs (x_new - xi)).
    - nra.
    - rewrite <- Rabs_mult. rewrite Rabs_right by nra. ring. }
  set (t := (xi - x_new) ^ 2 / (2 * l * l)).
  assert (Ht : 0 < t).
  { unfold t. apply Rdiv_lt_0_compat; nra. }
  replace (- (xi - x_new) ^ 2 / (2 * l * l)) with (- t) by (unfold t; field; lra).
  assert (He : exp (- t) <= (2 * l * l) / (D * D)).
  { rewrite exp_Ropp.
    assert (H1 : 1 + t < exp t) by (apply exp_ineq1; lra).
    assert (HDD : 0 < D * D) by nra.
    apply Rle_trans with (/ t).
    - apply Rinv_le_contravar; lra.
    - unfold t. rewrite Rinv_div. unfold Rdiv.
      apply Rmult_le_compat_l; [lra|].
      apply Rinv_le_contravar; lra. }
  pose proof (exp_pos (- t)) as Hp.
  assert (Hs : 0 <= sk * sk) by nra.
  rewrite Rabs_right by nra.
  replace (sk * sk * (2 * l * l) / (D * D)) with (sk * sk * (2 * l * l / (D * D)))
    by (unfold Rdiv; ring).
  now apply Rmult_le_compat_l.
Qed.

(** C8.  For a fixed training set and matrix [Kinv], the mean returned by
    [GPpredict] tends to 0 and the variance tends to the prior variance
    k(x,x) as the query point moves away from every training input: for every
    [eps > 0] there is a distance [D] such that at every query point at least
    [D] away from all training inputs the mean is within [eps] of 0 and the
    variance within [eps] of k(x,x). *)
Theorem GPpredict_far_from_training_inputs
        (g : Globals.t) (X Y : np.vec) (Kinv : np.ndarray2) :
  Globals.l g <> 0 ->
  length X = length Y ->
  np.nrows Kinv = length Y -> np.ncols Kinv = length Y ->
  forall eps : R, 0 < eps ->
  exists D : R,
    0 < D /\
    forall x_new : R,
      (forall xi, In xi X -> D <= Rabs (x_new - xi)) ->
      exists mean variance prior : R,
        GPpredict x_new X Y Kinv g = (Ok ([mean], np.mk2 1 1 [[variance]]), g)
        /\ kernel x_new x_new (Globals.sigma_kernel g) (Globals.l g)
                  (Globals.sigma_noise g) = Ok prior
        /\ Rabs mean < eps
        /\ Rabs (variance - prior) < eps.
Proof.
  intros Hl HXY Hr Hc eps Heps.
  set (sk := Globals.sigma_kernel g). set (l := Globals.l g).
  set (sn := Globals.sigma_noise g).
  set (B := Rlist_sum (map (fun j => Rlist_sum (map Rabs (np.col j Kinv)))
                           (seq 0 (np.ncols Kinv)))).
  set (C := B * Rlist_sum (map Rabs Y) + B * INR (length X)).
  assert (HB : 0 <= B).
  { unfold B. clear. induction (seq 0 (np.ncols Kinv)) as [|j s IH]; simpl; [lra|].
    pose proof (Rlist_sum_abs_nonneg (np.col j Kinv)). lra. }
  assert (HC1 : 0 <= B * Rlist_sum (map Rabs Y))
    by (apply Rmult_le_pos; [exact HB | apply Rlist_sum_abs_nonneg]).
  assert (HC2 : 0 <= B * INR (length X))
    by (apply Rmult_le_pos; [exact HB | apply pos_INR]).
  assert (HC : 0 <= C) by (unfold C; lra).
  set (delta := Rmin 1 (eps / (1 + C))).
  assert (Hq : 0 < eps / (1 + C)) by (apply Rdiv_lt_0_compat; lra).
  assert (Hd0 : 0 < delta) by (unfold delta; apply Rmin_glb_lt; lra).
  assert (Hd1 : delta <= 1) by apply Rmin_l.
  assert (Hd2 : delta * (1 + C) <= eps).
  { apply Rle_trans with (eps / (1 + C) * (1 + C)).
    - apply Rmult_le_compat_r; [lra | apply Rmin_r].
    - right. field. lra. }
  set (m := sk * sk * (2 * l * l)).
  assert (Hm : 0 <= m) by (unfold m; nra).
  exists (1 + m / delta).
  assert (HD : 1 <= 1 + m / delta).
  { assert (0 <= m / delta).
    { unfold Rdiv. apply Rmult_le_pos; [exact Hm | left; now apply Rinv_0_lt_compat]. }
    lra. }
  split; [lra|].
  intros x_new Hfar.
  set (D := 1 + m / delta) in *.
  assert (HmD : m / (D * D) <= delta).
  { assert (HDD : 0 < D * D) by nra.
    apply Rle_trans with (delta * (D * D) / (D * D)).
    - unfold Rdiv. apply Rmult_le_compat_r; [left; now apply Rinv_0_lt_compat|].
      assert (E : delta * D = delta + m) by (unfold D; field; lra).
      nra.
    - right. field. lra. }
  assert (HKs : Forall (fun a => Rabs a <= delta) (Kstar_of sk l sn X x_new)).
  { unfold Kstar_of. apply Forall_forall. intros a Ha.
    apply in_map_iff in Ha. destruct Ha as (xi & <- & Hxi).
    apply Rle_trans with (m / (D * D)); [|exact HmD].
    unfold m. apply kval_far; [exact Hl | lra | now apply Hfar]. }
  destruct (posterior_small (Kstar_of sk l sn X x_new) Y Kinv delta
              (conj (Rlt_le _ _ Hd0) Hd1) HKs) as [Hmean Hvar].
  fold B in Hmean, Hvar. rewrite Kstar_of_length in Hvar.
  exists (np.dot (np.vecmat (Kstar_of sk l sn X x_new) Kinv) Y),
         (kval sk l sn x_new x_new
          - np.dot (np.vecmat (Kstar_of sk l sn X x_new) Kinv) (Kstar_of sk l sn X x_new)),
         (kval sk l sn x_new x_new).
  split; [apply GPpredict_run; assumption|].
  split; [apply kernel_ok; exact Hl|].
  split.
  - apply Rle_lt_trans with (delta * (B * Rlist_sum (map Rabs Y))); [exact Hmean|].
    unfold C in Hd2. nra.
  - match goal with
    | |- Rabs (?k - ?q - ?k) < _ => replace (k - q - k) with (- q) by ring
    end.
    rewrite Rabs_Ropp.
    apply Rle_lt_trans with (delta * (B * INR (length X))); [exact Hvar|].
    unfold C in Hd2. nra.
Qed.

Lemma GPpredict_far_from_training_inputs_witness :
  exists D : R,
    0 < D /\
    forall x_new : R,
      (forall xi, In xi [1; 2] -> D <= Rabs (x_new - xi)) ->
      exists mean variance prior : R,
        GPpredict x_new [1; 2] [1; 4] (np.eye 2) notebook_globals
        = (Ok ([mean], np.mk2 1 1 [[variance]]), notebook_globals)
        /\ kernel x_new x_new 3 1 (3 / 10) = Ok prior
        /\ Rabs mean < 1 / 100
        /\ Rabs (variance - prior) < 1 / 100.
Proof.
  apply (GPpredict_far_from_training_inputs notebook_globals [1; 2] [1; 4] (np.eye 2));
    try reflexivity; simpl; lra.
Defined.

(** ** Products with the identity and associativity *)

Lemma dot_comm (u v : list R) : np.dot u v = np.dot v u.
Proof.
  revert v; induction u as [|a u IH]; intros [|b v]; simpl; try reflexivity.
  rewrite IH. ring.
Qed.

Lemma eye_col (n j : nat) :
  (j < n)%nat ->
  np.col j (np.eye n) = map (fun i => if (j =? i)%nat then 1 else 0) (seq 0 n).
Proof.
  intros Hj. unfold np.col, np.eye. cbn [np.rows]. rewrite map_map.
  apply map_ext. intros i.
  rewrite (nth_map_seq (fun c => if (i =? c)%nat then 1 else 0)) by exact Hj.
  now rewrite Nat.eqb_sym.
Qed.

Lemma vecmat_eye (v : list R) (n : nat) : length v = n -> np.vecmat v (np.eye n) = v.
Proof.
  intros Hv. unfold np.vecmat. cbn [np.eye np.ncols].
  transitivity (map (fun j => nth j v 0) (seq 0 n)).
  - apply map_ext_in. intros j Hj. apply in_seq in Hj.
    rewrite eye_col by lia. rewrite dot_comm. apply dot_unit_l; [exact Hv | lia].
  - subst n. apply map_nth_seq.
Qed.

Lemma wf_row_length (A : np.ndarray2) (i : nat) :
  np.wf A -> (i < np.nrows A)%nat -> length (nth i (np.rows A) []) = np.ncols A.
Proof.
  intros [Hr Hc] Hi. rewrite Forall_forall in Hc. apply Hc. apply nth_In. lia.
Qed.

(** (v . A) . w = v . (A . w). *)
Lemma dot_vecmat_assoc (v w : list R) (A : np.ndarray2) :
  np.wf A -> length v = np.nrows A -> length w = np.ncols A ->
  np.dot (np.vecmat v A) w = np.dot v (map (fun r => np.dot r w) (np.rows A)).
Proof.
  intros HA Hv Hw. pose proof HA as [Hr Hc].
  rewrite (dot_Rsum (np.vecmat v A) w (np.ncols A));
    [| apply length_vecmat | exact Hw].
  rewrite (dot_Rsum v _ (np.nrows A)); [| exact Hv | now rewrite length_map].
  rewrite (Rsum_ext (np.ncols A) _
             (fun k => Rsum (np.nrows A)
                            (fun i => nth i v 0 * np.entry A i k * nth k w 0))).
  2:{ intros k Hk. rewrite vecmat_entry_Rsum by (try lia; congruence).
      rewrite Hv. now rewrite <- Rsum_scal_r. }
  rewrite (Rsum_ext (np.nrows A) (fun i => nth i v 0 * nth i (map _ (np.rows A)) 0)
             (fun i => Rsum (np.ncols A)
                            (fun k => nth i v 0 * np.entry A i k * nth k w 0))).
  2:{ intros i Hi.
      rewrite (nth_map_lt (fun r => np.dot r w) (np.rows A) i 0 []) by lia.
      rewrite (dot_Rsum _ w (np.ncols A)); [| now apply wf_row_length | exact Hw].
      rewrite <- Rsum_scal_l. apply Rsum_ext. intros k _. unfold np.entry. ring. }
  apply Rsum_swap.
Qed.

Lemma matmul_col (A B C : np.ndarray2) (j : nat) :
  np.matmul A B = Ok C -> (j < np.ncols B)%nat ->
  np.col j C = map (fun r => np.dot r (np.col j B)) (np.rows A).
Proof.
  intros H Hj. apply matmul_inv in H. destruct H as (_ & _ & _ & E).
  unfold np.col at 1. rewrite E, map_map.
  apply map_ext. intros r. now apply nth_vecmat.
Qed.

(** (v . A) . B = v . (A @ B). *)
Lemma vecmat_assoc (v : list R) (A B C : np.ndarray2) :
  np.wf A -> np.wf B -> length v = np.nrows A ->
  np.matmul A B = Ok C ->
  np.vecmat (np.vecmat v A) B = np.vecmat v C.
Proof.
  intros HA HB Hv HC.
  pose proof (matmul_inv _ _ _ HC) as (Hin & _ & Hcc & _).
  unfold np.vecmat at 1 3. rewrite Hcc.
  apply map_ext_in. intros j Hj. apply in_seq in Hj.
  rewrite (matmul_col _ _ _ j HC) by lia.
  apply dot_vecmat_assoc; auto.
  rewrite length_col. destruct HB as [HB _]. lia.
Qed.

(** ** Reordering the training set *)

Lemma map_fst_combine {A B : Type} (a : list A) (b : list B) :
  length a = length b -> map fst (combine a b) = a.
Proof.
  revert b; induction a as [|h a IH]; intros [|h' b] H; simpl in *; try discriminate; auto.
  f_equal. apply IH. lia.
Qed.

Lemma map_snd_combine {A B : Type} (a : list A) (b : list B) :
  length a = length b -> map snd (combine a b) = b.
Proof.
  revert b; induction a as [|h a IH]; intros [|h' b] H; simpl in *; try discriminate; auto.
  f_equal. apply IH. lia.
Qed.

Lemma dot_map_perm {A : Type} (f h : A -> R) (a b : list A) :
  Permutation a b -> np.dot (map f a) (map h a) = np.dot (map f b) (map h b).
Proof.
  intros HP. rewrite !dot_map. apply Rlist_sum_perm. now apply Permutation_map.
Qed.

Section Reorder.
Variables (sk l sn x_new : R) (X Y X' Y' : list R) (Kinv Kinv' : np.ndarray2).
Hypothesis HXY : length X = length Y.
Hypothesis HXY' : length X' = length Y'.
Hypothesis Hperm : Permutation (combine X Y) (combine X' Y').
Hypothesis Hinv : np.inverse_of (Gram sk l sn X) Kinv.
Hypothesis Hinv' : np.inverse_of (Gram sk l sn X') Kinv'.

Let Ks := Kstar_of sk l sn X x_new.
Let Ks' := Kstar_of sk l sn X' x_new.
Let beta := np.vecmat Ks Kinv.

(** The weights [K* . Kinv] solve [beta . K = K*]. *)
Lemma weights_solve : np.vecmat beta (Gram sk l sn X) = Ks.
Proof.
  destruct (inverse_of_shape _ _ Hinv) as (_ & Hr & Hc).
  destruct Hinv as (HwK & HwKinv & _ & Hmul).
  cbn [Gram np.nrows] in Hr, Hc, Hmul.
  unfold beta.
  rewrite (vecmat_assoc Ks Kinv (Gram sk l sn X) (np.eye (length X))); auto.
  - apply vecmat_eye. apply Kstar_of_length.
  - unfold Ks. rewrite Kstar_of_length. congruence.
Qed.

(** Any solution of [z . K' = K*'] is [K*' . Kinv']. *)
Lemma weights_unique (z : list R) :
  length z = length X' ->
  np.vecmat z (Gram sk l sn X') = Ks' -> np.vecmat Ks' Kinv' = z.
Proof.
  intros Hz Hsol.
  destruct Hinv' as (HwK & HwKinv & Hmul & _).
  cbn [Gram np.nrows] in Hmul.
  rewrite <- Hsol.
  rewrite (vecmat_assoc z (Gram sk l sn X') Kinv' (np.eye (length X'))); auto.
  now apply vecmat_eye.
Qed.

Lemma reorder_weights :
  exists T T' : list (R * R * R),
    Permutation T T'
    /\ X = map (fun t => fst (fst t)) T /\ Y = map (fun t => snd (fst t)) T
    /\ beta = map snd T
    /\ X' = map (fun t => fst (fst t)) T' /\ Y' = map (fun t => snd (fst t)) T'.
Proof.
  destruct (inverse_of_shape _ _ Hinv) as (_ & _ & Hc).
  cbn [Gram np.nrows] in Hc.
  assert (Hb : length (combine X Y) = length beta).
  { unfold beta. rewrite length_vecmat, length_combine, Hc. lia. }
  set (T := combine (combine X Y) beta).
  assert (HT1 : map fst T = combine X Y) by now apply map_fst_combine.
  assert (HT2 : map snd T = beta) by now apply map_snd_combine.
  pose proof Hperm as HP. rewrite <- HT1 in HP.
  apply Permutation_sym, Permutation_map_inv in HP.
  destruct HP as (T' & HT' & HP).
  exists T, T'. split; [exact HP|].
  repeat split.
  - rewrite <- (map_fst_combine X Y HXY) at 1. rewrite <- HT1. now rewrite map_map.
  - rewrite <- (map_snd_combine X Y HXY) at 1. rewrite <- HT1. now rewrite map_map.
  - now rewrite HT2.
  - rewrite <- (map_fst_combine X' Y' HXY') at 1. rewrite HT'. now rewrite map_map.
  - rewrite <- (map_snd_combine X' Y' HXY') at 1. rewrite HT'. now rewrite map_map.
Qed.

Lemma reorder_posterior :
  np.dot (np.vecmat Ks' Kinv') Y' = np.dot beta Y
  /\ np.dot (np.vecmat Ks' Kinv') Ks' = np.dot beta Ks.
Proof.
  destruct reorder_weights as (T & T' & HP & EX & EY & Eb & EX' & EY').
  set (z := map snd T').
  assert (Hcol : forall c : R,
             np.dot z (map (fun xi => kval sk l sn xi c) X')
             = np.dot beta (map (fun xi => kval sk l sn xi c) X)).
  { intros c. unfold z. rewrite Eb, EX, EX', !map_map. symmetry.
    apply (dot_map_perm snd (fun t => kval sk l sn (fst (fst t)) c) T T' HP). }
  assert (Hz : length z = length X').
  { unfold z. rewrite EX'. now rewrite !length_map. }
  assert (Hsol : np.vecmat z (Gram sk l sn X') = Ks').
  { unfold np.vecmat. cbn [Gram np.ncols]. unfold Ks', Kstar_of.
    transitivity (map (fun j => kval sk l sn (nth j X' 0) x_new) (seq 0 (length X'))).
    2:{ rewrite <- (map_map (fun j => nth j X' 0) (fun xi => kval sk l sn xi x_new)).
        now rewrite map_nth_seq. }
    apply map_ext_in. intros j Hj. apply in_seq in Hj.
    rewrite Gram_col by lia. rewrite Hcol.
    assert (Hin : In (nth j X' 0) X).
    { assert (Hin' : In (nth j X' 0) (map (fun t : R * R * R => fst (fst t)) T'))
        by (rewrite <- EX'; apply nth_In; lia).
      apply in_map_iff in Hin'.
      destruct Hin' as (t & Et & Ht). rewrite <- Et, EX.
      apply (in_map (fun t => fst (fst t))).
      apply Permutation_in with T'; [now apply Permutation_sym | exact Ht]. }
    apply (In_nth _ _ 0) in Hin. destruct Hin as (j0 & Hj0 & Ej0).
    rewrite <- Ej0.
    rewrite <- Gram_col by exact Hj0.
    rewrite <- nth_vecmat by (cbn [Gram np.ncols]; exact Hj0).
    rewrite weights_solve. unfold Ks. now rewrite nth_Kstar_of. }
  rewrite (weights_unique z Hz Hsol).
  split.
  - unfold z. rewrite Eb, EY, EY'. symmetry.
    apply (dot_map_perm snd (fun t => snd (fst t)) T T' HP).
  - unfold Ks', Ks, Kstar_of. apply Hcol.
Qed.
End Reorder.

(** C6.  For a training set and any reordering of its (input, target)
    pairs, [GPpredict] with the exact inverse of the Gram matrix of the
    reordered set returns, at every query point, the same mean and variance
    as with the original order (equal in exact arithmetic, hence within every
    tolerance). *)
Theorem GPpredict_permutation_invariant
        (g : Globals.t) (x_new : R) (X Y X' Y' : np.vec) (K K' Kinv Kinv' : np.ndarray2) :
  length X = length Y -> length X' = length Y' ->
  Permutation (combine X Y) (combine X' Y') ->
  compute_K X (Globals.sigma_kernel g) (Globals.l g) (Globals.sigma_noise g) = Ok K ->
  compute_K X' (Globals.sigma_kernel g) (Globals.l g) (Globals.sigma_noise g) = Ok K' ->
  np.inverse_of K Kinv -> np.inverse_of K' Kinv' ->
  GPpredict x_new X' Y' Kinv' g = GPpredict x_new X Y Kinv g
  /\ exists mean variance : R,
      GPpredict x_new X Y Kinv g = (Ok ([mean], np.mk2 1 1 [[variance]]), g).
Proof.
  intros HXY HXY' HP HK HK' Hinv Hinv'.
  apply compute_K_inv in HK. destruct HK as (Hl & _ & ->).
  apply compute_K_inv in HK'. destruct HK' as (_ & _ & ->).
  destruct (inverse_of_shape _ _ Hinv) as (_ & Hr & Hc).
  destruct (inverse_of_shape _ _ Hinv') as (_ & Hr' & Hc').
  cbn [Gram np.nrows] in Hr, Hc, Hr', Hc'.
  assert (Hl0 : Globals.l g <> 0) by lra.
  rewrite (GPpredict_run g x_new X' Y' Kinv') by congruence.
  rewrite (GPpredict_run g x_new X Y Kinv) by congruence.
  destruct (reorder_posterior (Globals.sigma_kernel g) (Globals.l g)
              (Globals.sigma_noise g) x_new X Y X' Y' Kinv Kinv'
              HXY HXY' HP Hinv Hinv') as [E1 E2].
  rewrite E1, E2. split; [reflexivity | eauto].
Qed.

Lemma Gram_scenario_reversed :
  Gram 3 1 scenario_noise [3; 2; 1]
  = toeplitz3 (3 * 3 + scenario_noise) (9 * exp (- (1 / 2))) (9 * exp (- 2)).
Proof.
  unfold Gram, toeplitz3. cbn [map length].
  rewrite !kval_diag.
  rewrite (kval_scenario_off 1 2 1), (kval_scenario_off 2 1 1),
    (kval_scenario_off 2 3 1), (kval_scenario_off 3 2 1),
    (kval_scenario_off 1 3 4), (kval_scenario_off 3 1 4) by lra.
  replace (4 / 2) with 2 by lra. reflexivity.
Qed.

Lemma scenario_inverse_reversed :
  np.inverse_of (Gram 3 1 scenario_noise [3; 2; 1]) scenario_Kinv.
Proof.
  rewrite Gram_scenario_reversed. apply toeplitz3_inverse.
  pose proof scenario_det_pos. lra.
Qed.

Lemma GPpredict_permutation_invariant_witness :
  Permutation (combine [1; 2; 3] [1; 4; 9]) (combine [3; 2; 1] [9; 4; 1])
  /\ np.inverse_of (Gram 3 1 scenario_noise [1; 2; 3]) scenario_Kinv
  /\ np.inverse_of (Gram 3 1 scenario_noise [3; 2; 1]) scenario_Kinv
  /\ GPpredict (5 / 2) [3; 2; 1] [9; 4; 1] scenario_Kinv scenario_globals
     = GPpredict (5 / 2) [1; 2; 3] [1; 4; 9] scenario_Kinv scenario_globals
  /\ exists mean variance : R,
      GPpredict (5 / 2) [1; 2; 3] [1; 4; 9] scenario_Kinv scenario_globals
      = (Ok ([mean], np.mk2 1 1 [[variance]]), scenario_globals).
Proof.
  assert (HP : Permutation (combine [1; 2; 3] [1; 4; 9]) (combine [3; 2; 1] [9; 4; 1]))
    by exact (Permutation_rev [(1, 1); (2, 4); (3, 9)]).
  assert (HK : compute_K [1; 2; 3] 3 1 scenario_noise
               = Ok (Gram 3 1 scenario_noise [1; 2; 3])).
  { apply compute_K_ok; [lra | discriminate]. }
  assert (HK' : compute_K [3; 2; 1] 3 1 scenario_noise
                = Ok (Gram 3 1 scenario_noise [3; 2; 1])).
  { apply compute_K_ok; [lra | discriminate]. }
  split; [exact HP|]. split; [exact scenario_inverse|].
  split; [exact scenario_inverse_reversed|].
  exact (GPpredict_permutation_invariant scenario_globals (5 / 2)
           [1; 2; 3] [1; 4; 9] [3; 2; 1] [9; 4; 1]
           (Gram 3 1 scenario_noise [1; 2; 3]) (Gram 3 1 scenario_noise [3; 2; 1])
           scenario_Kinv scenario_Kinv
           eq_refl eq_refl HP HK HK' scenario_inverse scenario_inverse_reversed).
Defined.

(** ** Error paths of GPpredict *)

(** Fewer inputs than targets: [x_data[i]] raises [IndexError] in the loop. *)
Example GPpredict_short_x_data :
  GPpredict 0 [1] [1; 2] (np.eye 2) notebook_globals
  = (Raise IndexError, notebook_globals).
Proof.
  unfold GPpredict, for_range. cbn [length for_loop].
  unfold bind, lift, load. cbn [np.getitem nth_error].
  rewrite kernel_ok by (simpl; lra). reflexivity.
Qed.

(** A matrix of the wrong shape: [Kstar @ Kinv] raises [ValueError]. *)
Example GPpredict_wrong_shape :
  GPpredict 0 [1; 2] [1; 4] (np.eye 3) notebook_globals
  = (Raise ValueError, notebook_globals).
Proof.
  unfold GPpredict. unfold bind at 1.
  rewrite Kstar_for_range by (simpl; try lra; lia).
  reflexivity.
Qed.

(** A zero length scale: the kernel divides by zero at the first input. *)
Example GPpredict_zero_length_scale :
  GPpredict 0 [1; 2] [1; 4] (np.eye 2)
            (Globals.mk 3 0 (3 / 10) [1; 2] [1; 4] 2 (np.eye 2) [] [] [])
  = (Raise ZeroDivisionError,
     Globals.mk 3 0 (3 / 10) [1; 2] [1; 4] 2 (np.eye 2) [] [] []).
Proof.
  unfold GPpredict, for_range. cbn [length for_loop].
  unfold bind, lift, load. cbn [np.getitem nth_error Globals.l].
  rewrite kernel_l_zero. reflexivity.
Qed.

(** An empty training set with a 0x0 matrix: the mean is [0.] and the
    variance is the prior variance. *)
Example GPpredict_empty_training_set :
  GPpredict 5 [] [] (np.mk2 0 0 []) notebook_globals
  = (Ok ([0], np.mk2 1 1 [[kval 3 1 (3 / 10) 5 5 - 0]]), notebook_globals).
Proof.
  rewrite GPpredict_run; try reflexivity. simpl. lra.
Qed.

(** * More about the kernel *)

Lemma Req_bool_shift (a b t : R) : Req_bool (a + t) (b + t) = Req_bool a b.
Proof.
  unfold Req_bool. destruct (Req_dec_T (a + t) (b + t)), (Req_dec_T a b);
    try reflexivity; exfalso; lra.
Qed.

Lemma Req_bool_opp (a b : R) : Req_bool (- a) (- b) = Req_bool a b.
Proof.
  unfold Req_bool. destruct (Req_dec_T (- a) (- b)), (Req_dec_T a b);
    try reflexivity; exfalso; lra.
Qed.

Lemma kval_off_diagonal (sk l sn x1 x2 : R) :
  x1 <> x2 -> kval sk l sn x1 x2 = sk * sk * exp (- (x1 - x2) ^ 2 / (2 * l * l)).
Proof.
  intros H. unfold kval. rewrite Req_bool_neq by exact H. unfold R_of_bool. ring.
Qed.

Lemma exponent_nonpos (l d : R) : l <> 0 -> - d ^ 2 / (2 * l * l) <= 0.
Proof.
  intros Hl. assert (0 < 2 * l * l) by nra.
  assert (0 <= d ^ 2 / (2 * l * l)).
  { unfold Rdiv. apply Rmult_le_pos; [nra | left; now apply Rinv_0_lt_compat]. }
  unfold Rdiv in *. lra.
Qed.

Lemma exponent_neg (l d : R) : l <> 0 -> d <> 0 -> - d ^ 2 / (2 * l * l) < 0.
Proof.
  intros Hl Hd. assert (0 < 2 * l * l) by nra.
  assert (0 < d ^ 2 / (2 * l * l)).
  { apply Rdiv_lt_0_compat; nra. }
  unfold Rdiv in *. lra.
Qed.

Lemma exp_le_1 (t : R) : t <= 0 -> exp t <= 1.
Proof.
  intros [Ht | ->]; [| rewrite exp_0; lra].
  left. rewrite <- exp_0. now apply exp_increasing.
Qed.

(** X1.  For a non-zero length scale and a non-negative noise, the kernel
    returns a value between 0 and sigma_k^2 + sigma_n, its value on the
    diagonal; for two different inputs the value is at most sigma_k^2, and
    strictly between 0 and sigma_k^2 when sigma_k is not zero. *)
Theorem kernel_bounds (x1 x2 sigma_kernel l sigma_noise : R) :
  l <> 0 -> 0 <= sigma_noise ->
  exists k : R,
    kernel x1 x2 sigma_kernel l sigma_noise = Ok k
    /\ 0 <= k <= sigma_kernel ^ 2 + sigma_noise
    /\ (x1 <> x2 -> k <= sigma_kernel ^ 2)
    /\ (x1 <> x2 -> sigma_kernel <> 0 -> 0 < k < sigma_kernel ^ 2).
Proof.
  intros Hl Hsn. exists (kval sigma_kernel l sigma_noise x1 x2).
  split; [now apply kernel_ok|].
  pose proof (exp_pos (- (x1 - x2) ^ 2 / (2 * l * l))) as Hp.
  pose proof (exp_le_1 _ (exponent_nonpos l (x1 - x2) Hl)) as H1.
  assert (Hs : 0 <= sigma_kernel * sigma_kernel) by nra.
  assert (Hb : 0 <= R_of_bool (Req_bool x1 x2) <= 1)
    by (unfold R_of_bool; destruct (Req_bool x1 x2); lra).
  split; [|split].
  - unfold kval. split.
    + apply Rplus_le_le_0_compat; apply Rmult_le_pos; lra.
    + replace (sigma_kernel ^ 2) with (sigma_kernel * sigma_kernel) by ring.
      apply Rplus_le_compat; [nra | nra].
  - intros Hne. rewrite kval_off_diagonal by exact Hne. nra.
  - intros Hne Hsk. rewrite kval_off_diagonal by exact Hne.
    assert (Hlt : exp (- (x1 - x2) ^ 2 / (2 * l * l)) < 1).
    { rewrite <- exp_0. apply exp_increasing. apply exponent_neg; [exact Hl | lra]. }
    assert (Hs' : 0 < sigma_kernel * sigma_kernel) by nra.
    split; [now apply Rmult_lt_0_compat | nra].
Qed.

Lemma kernel_bounds_witness :
  exists k : R,
    kernel 1 2 3 1 (3 / 10) = Ok k
    /\ 0 <= k <= 3 ^ 2 + 3 / 10
    /\ (1 <> 2 -> k <= 3 ^ 2)
    /\ (1 <> 2 -> 3 <> 0 -> 0 < k < 3 ^ 2).
Proof. apply (kernel_bounds 1 2 3 1 (3 / 10)); lra. Defined.

(** X2.  The kernel is stationary: shifting both inputs by the same amount,
    or reflecting both, does not change its result, for all parameters. *)
Theorem kernel_stationary (x1 x2 t sigma_kernel l sigma_noise : R) :
  kernel (x1 + t) (x2 + t) sigma_kernel l sigma_noise
  = kernel x1 x2 sigma_kernel l sigma_noise
  /\ kernel (- x1) (- x2) sigma_kernel l sigma_noise
     = kernel x1 x2 sigma_kernel l sigma_noise.
Proof.
  unfold kernel. rewrite Req_bool_shift, Req_bool_opp.
  replace (- (x1 + t - (x2 + t)) ^ 2) with (- (x1 - x2) ^ 2) by ring.
  replace (- (- x1 - - x2) ^ 2) with (- (x1 - x2) ^ 2) by ring.
  split; reflexivity.
Qed.



(** X4.  Off the diagonal the kernel decreases with the distance between
    its inputs: a pair of inputs further apart never has the larger value. *)
Theorem kernel_decreasing_in_distance
        (x1 x2 x1' x2' sigma_kernel l sigma_noise k k' : R) :
  l <> 0 -> x1 <> x2 -> x1' <> x2' ->
  Rabs (x1 - x2) <= Rabs (x1' - x2') ->
  kernel x1 x2 sigma_kernel l sigma_noise = Ok k ->
  kernel x1' x2' sigma_kernel l sigma_noise = Ok k' ->
  k' <= k.
Proof.
  intros Hl Hne Hne' Hd Hk Hk'.
  rewrite kernel_ok in Hk, Hk' by exact Hl.
  injection Hk as <-. injection Hk' as <-.
  rewrite !kval_off_diagonal by assumption.
  assert (Hs : 0 <= sigma_kernel * sigma_kernel) by nra.
  apply Rmult_le_compat_l; [exact Hs|].
  assert (Hsq : (x1 - x2) ^ 2 <= (x1' - x2') ^ 2).
  { rewrite <- (Rabs_right ((x1 - x2) ^ 2)), <- (Rabs_right ((x1' - x2') ^ 2)) by nra.
    rewrite <- !RPow_abs. pose proof (Rabs_pos (x1 - x2)). nra. }
  assert (Hll : 0 < 2 * l * l) by nra.
  assert (He : - (x1' - x2') ^ 2 / (2 * l * l) <= - (x1 - x2) ^ 2 / (2 * l * l)).
  { unfold Rdiv. apply Rmult_le_compat_r; [left; now apply Rinv_0_lt_compat | lra]. }
  destruct He as [He | ->]; [left; now apply exp_increasing | right; reflexivity].
Qed.

Lemma kernel_decreasing_in_distance_witness :
  kval 3 1 (3 / 10) 1 4 <= kval 3 1 (3 / 10) 1 2.
Proof.
  apply (kernel_decreasing_in_distance 1 2 1 4 3 1 (3 / 10)); try lra.
  - rewrite !Rabs_left by lra. lra.
  - apply kernel_ok. lra.
  - apply kernel_ok. lra.
Defined.

(** * Failures of GPpredict *)

Lemma for_loop_ext {A : Type} (body1 body2 : nat -> A -> M A) (count start : nat)
      (acc : A) (g : Globals.t) :
  (forall i a g', (start <= i < start + count)%nat -> body1 i a g' = body2 i a g') ->
  for_loop start count body1 acc g = for_loop start count body2 acc g.
Proof.
  revert start acc g. induction count as [|c IH]; intros start acc g H; simpl.
  - reflexivity.
  - unfold bind. rewrite H by lia.
    destruct (body2 start acc g) as [[a|e] g']; [|reflexivity].
    apply IH. intros i a' g'' Hi. apply H. lia.
Qed.

Lemma getitem_firstn (a : list R) (n i : nat) :
  (i < n)%nat -> np.getitem (firstn n a) i = np.getitem a i.
Proof.
  intros Hi. unfold np.getitem. now rewrite nth_error_firstn, (proj2 (Nat.ltb_lt i n) Hi).
Qed.

(** Only the first [len(y_data)] inputs are read. *)
Lemma GPpredict_firstn (g : Globals.t) (x_new : R) (X Y : list R) (Kinv : np.ndarray2) :
  GPpredict x_new X Y Kinv g = GPpredict x_new (firstn (length Y) X) Y Kinv g.
Proof.
  unfold GPpredict. unfold bind at 1. unfold bind at 7. unfold for_range.
  rewrite (for_loop_ext _
             (fun i Kstar =>
                (xi <- lift (np.getitem (firstn (length Y) X) i) ;;
                 sk <- load Globals.sigma_kernel ;;
                 ls <- load Globals.l ;;
                 sn <- load Globals.sigma_noise ;;
                 v <- lift (kernel xi x_new sk ls sn) ;;
                 lift (np.setitem Kstar 0 i v))%M)).
  - reflexivity.
  - intros i a g' Hi. unfold bind at 1. unfold bind at 5. unfold lift at 1 3.
    rewrite getitem_firstn by lia. reflexivity.
Qed.

Section Failures.
Variables (g : Globals.t) (x_new : R) (x_data : list R) (N : nat).

Let body : nat -> np.ndarray2 -> M np.ndarray2 :=
  (fun i Kstar =>
     xi <- lift (np.getitem x_data i) ;;
     sk <- load Globals.sigma_kernel ;;
     ls <- load Globals.l ;;
     sn <- load Globals.sigma_noise ;;
     v <- lift (kernel xi x_new sk ls sn) ;;
     lift (np.setitem Kstar 0 i v))%M.

(** With fewer inputs than targets the loop stops at the first missing
    input. *)
Lemma Kstar_loop_short (count start : nat) (A : np.ndarray2) :
  Globals.l g <> 0 ->
  np.nrows A = 1%nat -> np.ncols A = N ->
  (start + count = N)%nat -> (start <= length x_data < N)%nat ->
  for_loop start count body A g = (Raise IndexError, g).
Proof.
  intros Hl. revert start A. induction count as [|c IH]; intros start A Hr Hc Hs Hlen.
  - lia.
  - simpl. unfold bind at 1. unfold body at 1. unfold bind, lift, load, np.getitem.
    destruct (Nat.eq_dec start (length x_data)) as [E|E].
    + rewrite (proj2 (nth_error_None x_data start)) by lia. reflexivity.
    + rewrite (nth_error_nth_lt x_data start 0) by lia.
      rewrite kernel_ok by exact Hl.
      unfold np.setitem. rewrite Hr, Hc.
      replace (start <? N)%nat with true by (symmetry; apply Nat.ltb_lt; lia).
      cbn [Nat.ltb Nat.leb andb].
      apply IH; simpl; auto; lia.
Qed.

(** With no input at all the first iteration fails on [x_data[0]]; with a
    zero length scale it fails in the kernel. *)
Lemma Kstar_loop_first (A : np.ndarray2) (c : nat) :
  (x_data = [] -> for_loop 0 (S c) body A g = (Raise IndexError, g))
  /\ (x_data <> [] -> Globals.l g = 0 ->
      for_loop 0 (S c) body A g = (Raise ZeroDivisionError, g)).
Proof.
  split.
  - intros ->. reflexivity.
  - intros Hne Hl.
    assert (Hpos : (0 < length x_data)%nat).
    { destruct (Nat.eq_dec (length x_data) 0) as [E|E]; [|lia].
      apply length_zero_iff_nil in E. contradiction. }
    simpl. unfold bind at 1. unfold body at 1.
    unfold bind, lift, load, np.getitem.
    rewrite (nth_error_nth_lt x_data 0 0) by exact Hpos.
    rewrite Hl, kernel_l_zero. reflexivity.
Qed.
End Failures.

(** The part of [GPpredict] after the loop, for a one-row [Kstar]. *)
Lemma GPpredict_after_loop (g : Globals.t) (x_new : R) (X Y : list R)
      (Kinv : np.ndarray2) :
  (length Y <= length X)%nat -> Globals.l g <> 0 \/ length Y = 0%nat ->
  ((np.nrows Kinv <> length Y \/ np.ncols Kinv <> length Y) ->
   GPpredict x_new X Y Kinv g = (Raise ValueError, g))
  /\ (np.nrows Kinv = length Y -> np.ncols Kinv = length Y -> Globals.l g = 0 ->
      GPpredict x_new X Y Kinv g = (Raise ZeroDivisionError, g)).
Proof.
  intros Hlen Hl.
  assert (Hloop : exists r,
             for_range (length Y)
               (fun i Kstar =>
                  (xi <- lift (np.getitem X i) ;;
                   sk <- load Globals.sigma_kernel ;;
                   ls <- load Globals.l ;;
                   sn <- load Globals.sigma_noise ;;
                   v <- lift (kernel xi x_new sk ls sn) ;;
                   lift (np.setitem Kstar 0 i v))%M)
               (np.zeros 1 (length Y)) g
             = (Ok (np.mk2 1 (length Y) [r]), g)).
  { destruct Hl as [Hl | H0].
    - eexists. apply Kstar_for_range; assumption.
    - rewrite H0. eexists. reflexivity. }
  destruct Hloop as [r Hloop].
  split.
  - intros Hshape. unfold GPpredict. unfold bind at 1. rewrite Hloop.
    unfold bind at 1. unfold lift at 1. unfold np.matmul at 1. cbn [np.ncols].
    destruct (Nat.eqb_spec (length Y) (np.nrows Kinv)) as [E|E]; [|reflexivity].
    cbn [rbind]. unfold np.matvec. cbn [np.ncols].
    destruct (Nat.eqb_spec (np.ncols Kinv) (length Y)) as [E'|E']; [|reflexivity].
    exfalso. destruct Hshape; congruence.
  - intros Hr Hc Hl0. unfold GPpredict. unfold bind at 1. rewrite Hloop.
    unfold bind, lift, load. unfold np.matmul at 1. cbn [np.ncols].
    rewrite Hr, Nat.eqb_refl. cbn [rbind]. unfold np.matvec. cbn [np.ncols].
    rewrite Hc, Nat.eqb_refl. rewrite Hl0, kernel_l_zero. reflexivity.
Qed.

(** Every way [GPpredict] can fail, in the order the code meets them. *)
Lemma GPpredict_failures (g : Globals.t) (x_new : R) (X Y : list R) (Kinv : np.ndarray2) :
  ((length X < length Y)%nat -> Globals.l g <> 0 \/ X = [] ->
   GPpredict x_new X Y Kinv g = (Raise IndexError, g))
  /\ ((1 <= length Y)%nat -> X <> [] -> Globals.l g = 0 ->
      GPpredict x_new X Y Kinv g = (Raise ZeroDivisionError, g))
  /\ ((length Y <= length X)%nat -> Globals.l g <> 0 \/ length Y = 0%nat ->
      np.nrows Kinv <> length Y \/ np.ncols Kinv <> length Y ->
      GPpredict x_new X Y Kinv g = (Raise ValueError, g))
  /\ (length Y = 0%nat -> np.nrows Kinv = 0%nat -> np.ncols Kinv = 0%nat ->
      Globals.l g = 0 ->
      GPpredict x_new X Y Kinv g = (Raise ZeroDivisionError, g)).
Proof.
  split; [|split; [|split]].
  - intros Hlt [Hl | ->].
    + unfold GPpredict. unfold bind at 1. unfold for_range.
      rewrite (Kstar_loop_short g x_new X (length Y)); auto; lia.
    + destruct Y as [|y Y]; [simpl in Hlt; lia|].
      unfold GPpredict. unfold bind at 1. unfold for_range. cbn [length].
      rewrite (proj1 (Kstar_loop_first g x_new [] _ _) eq_refl). reflexivity.
  - intros HN HX Hl.
    destruct Y as [|y Y]; [simpl in HN; lia|].
    unfold GPpredict. unfold bind at 1. unfold for_range. cbn [length].
    rewrite (proj2 (Kstar_loop_first g x_new X _ _) HX Hl). reflexivity.
  - intros Hlen Hl Hshape.
    now apply (proj1 (GPpredict_after_loop g x_new X Y Kinv Hlen Hl)).
  - intros HN Hr Hc Hl.
    apply (proj2 (GPpredict_after_loop g x_new X Y Kinv ltac:(lia) (or_intror HN)));
      auto; lia.
Qed.

(** [GPpredict] with at least as many inputs as targets, a matrix of the
    right shape and a non-zero length scale. *)
Lemma GPpredict_run_firstn (g : Globals.t) (x_new : R) (X Y : list R) (Kinv : np.ndarray2) :
  Globals.l g <> 0 ->
  (length Y <= length X)%nat ->
  np.nrows Kinv = length Y -> np.ncols Kinv = length Y ->
  GPpredict x_new X Y Kinv g
  = (Ok ([posterior_mean (Globals.sigma_kernel g) (Globals.l g) (Globals.sigma_noise g)
                         (firstn (length Y) X) Y Kinv x_new],
         np.mk2 1 1
                [[posterior_variance (Globals.sigma_kernel g) (Globals.l g)
                                     (Globals.sigma_noise g)
                                     (firstn (length Y) X) Kinv x_new]]), g).
Proof.
  intros Hl Hlen Hr Hc. rewrite GPpredict_firstn.
  rewrite GPpredict_run; auto. rewrite length_firstn. lia.
Qed.

(** When [GPpredict] returns, its inputs were in its domain. *)
Lemma GPpredict_Ok_inv (g g' : Globals.t) (x_new : R) (X Y : list R) (Kinv : np.ndarray2)
      (r : list R * np.ndarray2) :
  GPpredict x_new X Y Kinv g = (Ok r, g') ->
  Globals.l g <> 0 /\ (length Y <= length X)%nat
  /\ np.nrows Kinv = length Y /\ np.ncols Kinv = length Y.
Proof.
  intros H.
  destruct (GPpredict_failures g x_new X Y Kinv) as (F1 & F2 & F3 & F4).
  destruct (Req_dec_T (Globals.l g) 0) as [Hl|Hl].
  - exfalso. destruct (Nat.eq_dec (length Y) 0) as [HN|HN].
    + destruct (Nat.eq_dec (np.nrows Kinv) 0) as [Hr|Hr];
        [destruct (Nat.eq_dec (np.ncols Kinv) 0) as [Hc|Hc]|].
      * rewrite F4 in H by assumption. discriminate.
      * rewrite F3 in H by (try lia; auto). discriminate.
      * rewrite F3 in H by (try lia; auto). discriminate.
    + destruct X as [|h t].
      * rewrite F1 in H by (simpl; auto; lia). discriminate.
      * rewrite F2 in H by (auto; try lia; discriminate). discriminate.
  - destruct (Nat.lt_ge_cases (length X) (length Y)) as [Hlt|Hge].
    + rewrite F1 in H by auto. discriminate.
    + destruct (Nat.eq_dec (np.nrows Kinv) (length Y)) as [Hr|Hr];
        [destruct (Nat.eq_dec (np.ncols Kinv) (length Y)) as [Hc|Hc]|].
      * auto.
      * rewrite F3 in H by auto. discriminate.
      * rewrite F3 in H by auto. discriminate.
Qed.

(** X5.  With fewer training inputs than targets, [GPpredict] raises
    [IndexError] (at the first missing input) and changes no global, when the
    length scale is not zero or there is no input at all. *)
Theorem GPpredict_IndexError
        (g : Globals.t) (x_new : R) (x_data y_data : list R) (Kinv : np.ndarray2) :
  (length x_data < length y_data)%nat ->
  Globals.l g <> 0 \/ x_data = [] ->
  GPpredict x_new x_data y_data Kinv g = (Raise IndexError, g).
Proof.
  destruct (GPpredict_failures g x_new x_data y_data Kinv) as (F1 & _). exact F1.
Qed.

Lemma GPpredict_IndexError_witness :
  GPpredict 5 [1; 2] [1; 4; 9] (np.eye 3) notebook_globals
  = (Raise IndexError, notebook_globals).
Proof.
  apply (GPpredict_IndexError notebook_globals 5 [1; 2] [1; 4; 9] (np.eye 3)).
  - simpl. lia.
  - left. simpl. lra.
Defined.

(** With a zero length scale [GPpredict] raises [ZeroDivisionError]
    and changes no global: in its first kernel call when there is at least
    one target and one input, and in the prior-variance term when the
    training set is empty and the matrix is 0x0. *)
Theorem GPpredict_ZeroDivisionError
        (g : Globals.t) (x_new : R) (x_data y_data : list R) (Kinv : np.ndarray2) :
  Globals.l g = 0 ->
  ((1 <= length y_data)%nat /\ x_data <> [])
  \/ (length y_data = 0%nat /\ np.nrows Kinv = 0%nat /\ np.ncols Kinv = 0%nat) ->
  GPpredict x_new x_data y_data Kinv g = (Raise ZeroDivisionError, g).
Proof.
  intros Hl H.
  destruct (GPpredict_failures g x_new x_data y_data Kinv) as (_ & F2 & _ & F4).
  destruct H as [[HN HX] | (HN & Hr & Hc)]; [now apply F2 | now apply F4].
Qed.

Lemma GPpredict_ZeroDivisionError_witness :
  let g := Globals.mk 3 0 (3 / 10) [1; 2] [1; 4] 2 (np.eye 2) [] [] [] in
  GPpredict 5 [1; 2] [1; 4] (np.eye 2) g = (Raise ZeroDivisionError, g)
  /\ GPpredict 5 [] [] (np.mk2 0 0 []) g = (Raise ZeroDivisionError, g).
Proof.
  split.
  - apply GPpredict_ZeroDivisionError; [reflexivity|].
    left. split; [simpl; lia | discriminate].
  - apply GPpredict_ZeroDivisionError; [reflexivity|].
    right. repeat split.
Defined.

(** X6.  When the loop over the inputs goes through and the matrix does not
    have shape (N, N) for N = len(y_data), [GPpredict] raises [ValueError] in
    the product for the mean and changes no global. *)
Theorem GPpredict_ValueError
        (g : Globals.t) (x_new : R) (x_data y_data : list R) (Kinv : np.ndarray2) :
  (length y_data <= length x_data)%nat ->
  Globals.l g <> 0 \/ length y_data = 0%nat ->
  np.nrows Kinv <> length y_data \/ np.ncols Kinv <> length y_data ->
  GPpredict x_new x_data y_data Kinv g = (Raise ValueError, g).
Proof.
  destruct (GPpredict_failures g x_new x_data y_data Kinv) as (_ & _ & F3 & _). exact F3.
Qed.

Lemma GPpredict_ValueError_witness :
  GPpredict 5 [1; 2] [1; 4] (np.mk2 2 3 [[1; 0; 0]; [0; 1; 0]]) notebook_globals
  = (Raise ValueError, notebook_globals).
Proof.
  apply GPpredict_ValueError.
  - simpl. lia.
  - left. simpl. lra.
  - right. simpl. lia.
Defined.

(** X7.  [GPpredict] returns a value exactly when the length scale is not
    zero, there are at least as many inputs as targets and the matrix has
    shape (N, N) for N = len(y_data); in every other case it raises (for a
    zero length scale the failure is the division by zero, where NumPy scalars
    give inf or nan instead of a real value). *)
Theorem GPpredict_returns_iff
        (g : Globals.t) (x_new : R) (x_data y_data : list R) (Kinv : np.ndarray2) :
  (exists r g', GPpredict x_new x_data y_data Kinv g = (Ok r, g'))
  <-> (Globals.l g <> 0 /\ (length y_data <= length x_data)%nat
       /\ np.nrows Kinv = length y_data /\ np.ncols Kinv = length y_data).
Proof.
  split.
  - intros (r & g' & H). now apply GPpredict_Ok_inv in H.
  - intros (Hl & Hlen & Hr & Hc). do 2 eexists. now apply GPpredict_run_firstn.
Qed.

Lemma GPpredict_returns_iff_witness :
  exists r g', GPpredict 5 [1; 2] [1; 4] (np.eye 2) notebook_globals = (Ok r, g').
Proof.
  apply (proj2 (GPpredict_returns_iff notebook_globals 5 [1; 2] [1; 4] (np.eye 2))).
  repeat split; simpl; try lra; lia.
Defined.

(** X8.  Inputs beyond the number of targets are never read: appending
    anything to [x_data] changes neither the result nor the exception. *)
Theorem GPpredict_ignores_extra_inputs
        (g : Globals.t) (x_new : R) (x_data extra y_data : list R) (Kinv : np.ndarray2) :
  (length y_data <= length x_data)%nat ->
  GPpredict x_new (x_data ++ extra) y_data Kinv g = GPpredict x_new x_data y_data Kinv g.
Proof.
  intros Hlen. rewrite GPpredict_firstn. rewrite (GPpredict_firstn g x_new x_data).
  rewrite firstn_app. replace (length y_data - length x_data)%nat with 0%nat by lia.
  now rewrite firstn_O, app_nil_r.
Qed.

Lemma GPpredict_ignores_extra_inputs_witness :
  GPpredict 5 ([1; 2] ++ [7; 8]) [1; 4] (np.eye 2) notebook_globals
  = GPpredict 5 [1; 2] [1; 4] (np.eye 2) notebook_globals.
Proof.
  apply (GPpredict_ignores_extra_inputs notebook_globals 5 [1; 2] [7; 8] [1; 4]).
  simpl. lia.
Defined.

(** * Targets and noise *)

Lemma length_zip_with {A B C : Type} (f : A -> B -> C) (a : list A) (b : list B) :
  length a = length b -> length (numpy.zip_with f a b) = length a.
Proof.
  revert b; induction a as [|u a IH]; intros [|v b] H; simpl in *; try discriminate; auto.
Qed.

Lemma dot_zip_with_linear (u a b : list R) (c : R) :
  length a = length b ->
  np.dot u (numpy.zip_with (fun s t => s + c * t) a b) = np.dot u a + c * np.dot u b.
Proof.
  revert a b; induction u as [|h u IH]; intros [|s a] [|t b] H; simpl in *;
    try discriminate; try lra.
  rewrite IH by lia. ring.
Qed.

(** X9.  The mean returned by [GPpredict] is linear in the targets and the
    variance does not depend on them: for two target arrays of the same
    length on which [GPpredict] returns, the variances agree and the targets
    [y1 + c * y2] give the mean [m1 + c * m2]. *)
Theorem GPpredict_linear_in_targets
        (g : Globals.t) (x_new c : R) (x_data y1 y2 : list R) (Kinv V1 V2 : np.ndarray2)
        (m1 m2 : R) :
  length y1 = length y2 ->
  GPpredict x_new x_data y1 Kinv g = (Ok ([m1], V1), g) ->
  GPpredict x_new x_data y2 Kinv g = (Ok ([m2], V2), g) ->
  V1 = V2
  /\ GPpredict x_new x_data (numpy.zip_with (fun s t => s + c * t) y1 y2) Kinv g
     = (Ok ([m1 + c * m2], V1), g).
Proof.
  intros Hlen H1 H2.
  destruct (GPpredict_Ok_inv _ _ _ _ _ _ _ H1) as (Hl & Hle & Hr & Hc).
  rewrite GPpredict_run_firstn in H1 by assumption.
  rewrite GPpredict_run_firstn in H2 by (try congruence; lia).
  injection H1 as <- <-. injection H2 as <- <-.
  split; [now rewrite Hlen|].
  rewrite GPpredict_run_firstn;
    rewrite ?length_zip_with by exact Hlen; try assumption.
  unfold posterior_mean. rewrite dot_zip_with_linear by exact Hlen.
  now rewrite <- Hlen.
Qed.

Lemma GPpredict_linear_in_targets_witness :
  let g := notebook_globals in
  let Kinv := np.mk2 2 2 [[1; 2]; [3; 4]] in
  let m1 := posterior_mean 3 1 (3 / 10) [1; 2] [1; 4] Kinv 5 in
  let m2 := posterior_mean 3 1 (3 / 10) [1; 2] [0; 1] Kinv 5 in
  let V := np.mk2 1 1 [[posterior_variance 3 1 (3 / 10) [1; 2] Kinv 5]] in
  V = V
  /\ GPpredict 5 [1; 2] (numpy.zip_with (fun s t => s + 2 * t) [1; 4] [0; 1]) Kinv g
     = (Ok ([m1 + 2 * m2], V), g).
Proof.
  apply (GPpredict_linear_in_targets notebook_globals 5 2 [1; 2] [1; 4] [0; 1]).
  - reflexivity.
  - apply GPpredict_run_firstn; try reflexivity; simpl; try lra; lia.
  - apply GPpredict_run_firstn; try reflexivity; simpl; try lra; lia.
Defined.

(** X10.  With the exact inverse of the table of kernel values, at a
    training input [GPpredict] returns that input's target with variance 0
    whatever the noise [sigma_noise] is: the noise term is added to the
    cross-covariance of the query with itself as well, so the prediction
    passes through the data and the variance there is below the prior
    variance sigma_k^2 + sigma_n by exactly that amount. *)
Theorem GPpredict_interpolates_with_noise
        (g : Globals.t) (x_data y_data : list R) (Kinv : np.ndarray2) (j : nat) :
  Globals.l g <> 0 ->
  length x_data = length y_data ->
  np.inverse_of
    (Gram (Globals.sigma_kernel g) (Globals.l g) (Globals.sigma_noise g) x_data) Kinv ->
  (j < length x_data)%nat ->
  GPpredict (nth j x_data 0) x_data y_data Kinv g
  = (Ok ([nth j y_data 0], np.mk2 1 1 [[0]]), g)
  /\ kernel (nth j x_data 0) (nth j x_data 0) (Globals.sigma_kernel g) (Globals.l g)
            (Globals.sigma_noise g)
     = Ok (Globals.sigma_kernel g ^ 2 + Globals.sigma_noise g).
Proof.
  intros Hl HXY Hinv Hj. split.
  - now apply GPpredict_at_training_point.
  - rewrite kernel_ok by exact Hl. rewrite kval_diag. f_equal. ring.
Qed.

Lemma GPpredict_interpolates_with_noise_witness :
  GPpredict 2 [1; 2; 3] [1; 4; 9] scenario_Kinv scenario_globals
  = (Ok ([4], np.mk2 1 1 [[0]]), scenario_globals)
  /\ kernel 2 2 3 1 scenario_noise = Ok (3 ^ 2 + scenario_noise).
Proof.
  apply (GPpredict_interpolates_with_noise scenario_globals [1; 2; 3] [1; 4; 9]
           scenario_Kinv 1).
  - simpl. lra.
  - reflexivity.
  - exact scenario_inverse.
  - simpl. lia.
Defined.

(** * Prediction on the grid *)

Lemma set_sigma_set_y (y s y' s' : list R) (g : Globals.t) :
  set_sigma s' (set_y y' (set_sigma s (set_y y g))) = set_sigma s' (set_y y' g).
Proof. reflexivity. Qed.

Ltac globals_simpl :=
  cbn [set_sigma set_y Globals.sigma_kernel Globals.l Globals.sigma_noise
       Globals.X Globals.Y Globals.N Globals.Kinv Globals.x Globals.y Globals.sigma].

Section Grid.
Variable g : Globals.t.
Hypothesis Hl : Globals.l g <> 0.
Hypothesis Hlen : (length (Globals.Y g) <= length (Globals.X g))%nat.
Hypothesis Hr : np.nrows (Globals.Kinv g) = length (Globals.Y g).
Hypothesis Hc : np.ncols (Globals.Kinv g) = length (Globals.Y g).

Let xs : list R := Globals.x g.

Let mean : R -> R :=
  posterior_mean (Globals.sigma_kernel g) (Globals.l g) (Globals.sigma_noise g)
                 (firstn (length (Globals.Y g)) (Globals.X g)) (Globals.Y g)
                 (Globals.Kinv g).

Let variance : R -> R :=
  posterior_variance (Globals.sigma_kernel g) (Globals.l g) (Globals.sigma_noise g)
                     (firstn (length (Globals.Y g)) (Globals.X g)) (Globals.Kinv g).

Let state (i : nat) : Globals.t :=
  set_sigma (map variance (firstn i xs) ++ repeat 0 (length xs - i))
            (set_y (map mean (firstn i xs) ++ repeat 0 (length xs - i)) g).

Let body : nat -> unit -> M unit :=
  (fun i _ =>
     xg <- load Globals.x ;;
     xi <- lift (np.getitem xg i) ;;
     Xg <- load Globals.X ;;
     Yg <- load Globals.Y ;;
     Kg <- load Globals.Kinv ;;
     r <- GPpredict xi Xg Yg Kg ;;
     yg <- load Globals.y ;;
     m <- lift (numpy.item (fst r)) ;;
     yg' <- lift (numpy.setitem yg i m) ;;
     _ <- store_y yg' ;;
     sg <- load Globals.sigma ;;
     v <- lift (numpy.item2 (snd r)) ;;
     sg' <- lift (numpy.setitem sg i v) ;;
     store_sigma sg')%M.

Lemma filled_step (f : R -> R) (i : nat) :
  (i < length xs)%nat ->
  np.upd i (f (nth i xs 0)) (map f (firstn i xs) ++ repeat 0 (length xs - i))
  = map f (firstn (S i) xs) ++ repeat 0 (length xs - S i).
Proof.
  intros Hi.
  replace (length xs - i)%nat with (S (length xs - S i)) by lia. cbn [repeat].
  assert (E : length (map f (firstn i xs)) = i)
    by (rewrite length_map, length_firstn; lia).
  pose proof (upd_middle (map f (firstn i xs)) (repeat 0 (length xs - S i)) 0
                         (f (nth i xs 0))) as Hu.
  rewrite E in Hu. rewrite Hu.
  rewrite (firstn_snoc xs i 0) by exact Hi.
  now rewrite map_app, <- app_assoc.
Qed.

Lemma filled_length (f : R -> R) (i : nat) :
  (i <= length xs)%nat ->
  length (map f (firstn i xs) ++ repeat 0 (length xs - i)) = length xs.
Proof.
  intros Hi. rewrite length_app, length_map, length_firstn, repeat_length. lia.
Qed.

Lemma grid_step (i : nat) :
  (i < length xs)%nat -> body i tt (state i) = (Ok tt, state (S i)).
Proof.
  intros Hi. unfold body, state.
  unfold bind at 1. unfold load at 1. globals_simpl. fold xs.
  unfold bind at 1. unfold lift at 1. unfold np.getitem.
  rewrite (nth_error_nth_lt xs i 0) by exact Hi.
  unfold bind at 1. unfold load at 1. globals_simpl.
  unfold bind at 1. unfold load at 1. globals_simpl.
  unfold bind at 1. unfold load at 1. globals_simpl.
  unfold bind at 1.
  rewrite GPpredict_run_firstn by assumption.
  globals_simpl. cbn [fst snd].
  fold (mean (nth i xs 0)). fold (variance (nth i xs 0)).
  unfold bind at 1. unfold load at 1. globals_simpl.
  unfold bind at 1. unfold lift at 1. cbn [numpy.item].
  unfold bind at 1. unfold lift at 1. unfold numpy.setitem.
  rewrite filled_length by lia.
  rewrite (proj2 (Nat.ltb_lt i (length xs)) Hi).
  rewrite filled_step by exact Hi.
  unfold bind at 1. unfold store_y at 1.
  unfold bind at 1. unfold load at 1. globals_simpl.
  unfold bind at 1. unfold lift at 1. cbn [numpy.item2 np.rows].
  unfold bind at 1. unfold lift at 1. unfold numpy.setitem.
  rewrite filled_length by lia.
  rewrite (proj2 (Nat.ltb_lt i (length xs)) Hi).
  rewrite filled_step by exact Hi.
  reflexivity.
Qed.

Lemma grid_loop (count start : nat) :
  (start + count = length xs)%nat ->
  for_loop start count body tt (state start) = (Ok tt, state (length xs)).
Proof.
  revert start. induction count as [|c IH]; intros start Hs.
  - simpl. unfold ret. replace start with (length xs) by lia. reflexivity.
  - simpl. unfold bind at 1. rewrite grid_step by lia. apply IH. lia.
Qed.

Lemma predict_on_grid_run :
  predict_on_grid g = (Ok tt, set_sigma (map variance xs) (set_y (map mean xs) g)).
Proof.
  unfold predict_on_grid.
  unfold bind at 1. unfold load at 1.
  unfold bind at 1. unfold store_y at 1.
  unfold bind at 1. unfold load at 1. cbn [set_y Globals.x].
  unfold bind at 1. unfold store_sigma at 1.
  unfold bind at 1. unfold load at 1. cbn [set_sigma Globals.x].
  fold xs. unfold for_range, numpy.zeros_like.
  pose proof (grid_loop (length xs) 0 eq_refl) as H.
  unfold state in H. rewrite firstn_all, Nat.sub_diag, Nat.sub_0_r in H.
  cbn [firstn map app repeat] in H. rewrite !app_nil_r in H.
  exact H.
Qed.
End Grid.

Lemma GPpredict_pure_in_params
      (x_new : R) (x_data y_data : list R) (Kinv : np.ndarray2) :
  pure_in_params (GPpredict x_new x_data y_data Kinv).
Proof. unfold GPpredict, for_range. purity. Qed.

Lemma same_params_set (ys ss : list R) (g : Globals.t) :
  Globals.same_params (set_sigma ss (set_y ys g)) g.
Proof. repeat split. Qed.



(** A failure at the first grid point stops the loop. *)
Lemma predict_on_grid_fails_first (g : Globals.t) (e : exn) :
  Globals.x g <> [] ->
  GPpredict (nth 0 (Globals.x g) 0) (Globals.X g) (Globals.Y g) (Globals.Kinv g) g
  = (Raise e, g) ->
  predict_on_grid g
  = (Raise e,
     set_sigma (repeat 0 (length (Globals.x g)))
               (set_y (repeat 0 (length (Globals.x g))) g)).
Proof.
  intros Hx Hfail.
  destruct (Globals.x g) as [|x0 xs] eqn:Ex; [contradiction|]. cbn [nth] in Hfail.
  unfold predict_on_grid.
  unfold bind at 1. unfold load at 1.
  unfold bind at 1. unfold store_y at 1.
  unfold bind at 1. unfold load at 1. globals_simpl.
  unfold bind at 1. unfold store_sigma at 1.
  unfold bind at 1. unfold load at 1. globals_simpl.
  rewrite Ex. unfold numpy.zeros_like, for_range. cbn [length for_loop].
  unfold bind at 1. unfold bind at 1. unfold load at 1. globals_simpl. rewrite Ex.
  unfold bind at 1. unfold lift at 1. cbn [np.getitem nth_error].
  unfold bind at 1. unfold load at 1. globals_simpl.
  unfold bind at 1. unfold load at 1. globals_simpl.
  unfold bind at 1. unfold load at 1. globals_simpl.
  unfold bind at 1.
  set (st := set_sigma (repeat 0 (S (length xs))) (set_y (repeat 0 (S (length xs))) g)).
  destruct (GPpredict_pure_in_params x0 (Globals.X g) (Globals.Y g) (Globals.Kinv g)
              st g (same_params_set _ _ g)) as (Hv & Hs & _).
  rewrite Hfail in Hv. cbn [fst] in Hv.
  destruct (GPpredict x0 (Globals.X g) (Globals.Y g) (Globals.Kinv g) st) as [r st'].
  cbn [fst snd] in Hv, Hs. subst. reflexivity.
Qed.

(** X13.  When [GPpredict] raises at the first grid point, the loop over a
    non-empty grid raises the same exception and leaves [y] and [sigma]
    filled with zeros. *)
Theorem predict_on_grid_propagates (g : Globals.t) (e : exn) :
  Globals.x g <> [] ->
  GPpredict (nth 0 (Globals.x g) 0) (Globals.X g) (Globals.Y g) (Globals.Kinv g) g
  = (Raise e, g) ->
  predict_on_grid g
  = (Raise e,
     set_sigma (repeat 0 (length (Globals.x g)))
               (set_y (repeat 0 (length (Globals.x g))) g)).
Proof. apply predict_on_grid_fails_first. Qed.

Lemma predict_on_grid_propagates_witness :
  let g := Globals.mk 3 1 (3 / 10) [1] [1; 4] 2 (np.eye 2) [0; 5] [] [] in
  predict_on_grid g = (Raise IndexError, set_sigma [0; 0] (set_y [0; 0] g)).
Proof.
  apply (predict_on_grid_propagates
           (Globals.mk 3 1 (3 / 10) [1] [1; 4] 2 (np.eye 2) [0; 5] [] []) IndexError).
  - discriminate.
  - apply (proj1 (GPpredict_failures _ _ _ _ _)); [simpl; lia | left; simpl; lra].
Defined.

Section Frame.

Lemma same_but_y_sigma_refl (g : Globals.t) : same_but_y_sigma g g.
Proof. repeat split. Qed.





End Frame.


(** * The confidence band and the toy function *)

Lemma broadcast_same_length {A B C : Type} (f : A -> B -> C) (a : list A) (b : list B) :
  length a = length b -> numpy.broadcast f a b = Ok (numpy.zip_with f a b).
Proof. intros H. unfold numpy.broadcast. now rewrite H, Nat.eqb_refl. Qed.

Lemma nth_zip_with {A B C : Type} (f : A -> B -> C) (a : list A) (b : list B)
      (k : nat) (da : A) (db : B) (dc : C) :
  length a = length b -> (k < length a)%nat ->
  nth k (numpy.zip_with f a b) dc = f (nth k a da) (nth k b db).
Proof.
  revert b k; induction a as [|u a IH]; intros [|v b] [|k] H Hk; simpl in *;
    try discriminate; try lia; auto.
  apply IH; lia.
Qed.

Lemma nth_mirror (a b : list R) (k : nat) :
  length a = length b -> (k < length b)%nat ->
  nth (2 * length b - 1 - k) (a ++ rev b) 0 = nth k b 0.
Proof.
  intros Hab Hk. rewrite app_nth2 by lia. rewrite rev_nth by lia.
  f_equal. lia.
Qed.

(** X16.  For arrays [x], [y] and [sigma] of one length n, the polygon handed
    to [plt.fill] has 2n vertices; vertex k and vertex 2n-1-k lie on the same
    abscissa [x[k]], the first at [y[k] - 1.96 sigma[k]] and the second at
    [y[k] + 1.96 sigma[k]]: the band is centred on the prediction and its
    half-width is 1.96 times the value [GPpredict] returned as [sigma]. *)
Theorem fill_polygon_band (x y sigma : list R) :
  length y = length x -> length sigma = length x ->
  exists px py : list R,
    fill_polygon x y sigma = Ok (px, py)
    /\ length px = (2 * length x)%nat /\ length py = (2 * length x)%nat
    /\ forall k : nat,
        (k < length x)%nat ->
        nth k px 0 = nth k x 0
        /\ nth (2 * length x - 1 - k) px 0 = nth k x 0
        /\ nth k py 0 = nth k y 0 - 196 / 100 * nth k sigma 0
        /\ nth (2 * length x - 1 - k) py 0 = nth k y 0 + 196 / 100 * nth k sigma 0.
Proof.
  intros Hy Hs.
  assert (Hsc : length y = length (numpy.scale (196 / 100) sigma))
    by (unfold numpy.scale; rewrite length_map; congruence).
  unfold fill_polygon, numpy.subtract, numpy.add.
  rewrite !broadcast_same_length by exact Hsc. cbn [rbind].
  unfold numpy.concatenate, numpy.flip. cbn [concat]. rewrite !app_nil_r.
  set (lo := numpy.zip_with Rminus y (numpy.scale (196 / 100) sigma)).
  set (hi := numpy.zip_with Rplus y (numpy.scale (196 / 100) sigma)).
  assert (Hlo : length lo = length x)
    by (unfold lo; rewrite length_zip_with by exact Hsc; exact Hy).
  assert (Hhi : length hi = length x)
    by (unfold hi; rewrite length_zip_with by exact Hsc; exact Hy).
  exists (x ++ rev x), (lo ++ rev hi). split; [reflexivity|].
  split; [rewrite length_app, length_rev; lia|].
  split; [rewrite length_app, length_rev; lia|].
  intros k Hk.
  assert (Hscale : nth k (numpy.scale (196 / 100) sigma) 0 = 196 / 100 * nth k sigma 0).
  { unfold numpy.scale.
    rewrite (nth_map_lt (Rmult (196 / 100)) sigma k 0 0) by lia. reflexivity. }
  split; [apply app_nth1; exact Hk|].
  split; [now apply nth_mirror|].
  split.
  - rewrite app_nth1 by lia. unfold lo.
    rewrite (nth_zip_with Rminus y _ k 0 0 0) by (auto; lia). now rewrite Hscale.
  - rewrite <- Hhi at 1. rewrite nth_mirror by lia. unfold hi.
    rewrite (nth_zip_with Rplus y _ k 0 0 0) by (auto; lia). now rewrite Hscale.
Qed.

Lemma fill_polygon_band_witness :
  exists px py : list R,
    fill_polygon [0; 1] [3; 4] [1; 2] = Ok (px, py)
    /\ length px = 4%nat /\ length py = 4%nat
    /\ forall k : nat,
        (k < 2)%nat ->
        nth k px 0 = nth k [0; 1] 0
        /\ nth (2 * 2 - 1 - k) px 0 = nth k [0; 1] 0
        /\ nth k py 0 = nth k [3; 4] 0 - 196 / 100 * nth k [1; 2] 0
        /\ nth (2 * 2 - 1 - k) py 0 = nth k [3; 4] 0 + 196 / 100 * nth k [1; 2] 0.
Proof. apply (fill_polygon_band [0; 1] [3; 4] [1; 2]); reflexivity. Defined.

(** X18.  [func] keeps the shape of its argument, is even, and each of its
    values is at most the absolute value of the corresponding input. *)
Theorem func_even_and_bounded (x : list R) :
  length (func x) = length x
  /\ func (map Ropp x) = func x
  /\ forall i : nat, Rabs (nth i (func x) 0) <= Rabs (nth i x 0).
Proof.
  unfold func. split; [apply length_map|]. split.
  - rewrite map_map. apply map_ext. intros t. rewrite sin_neg. ring.
  - intros i. destruct (Nat.lt_ge_cases i (length x)) as [Hi|Hi].
    + rewrite (nth_map_lt (fun t => t * sin t) x i 0 0) by exact Hi.
      rewrite Rabs_mult.
      assert (Rabs (sin (nth i x 0)) <= 1).
      { apply Rabs_le. pose proof (SIN_bound (nth i x 0)). lra. }
      pose proof (Rabs_pos (nth i x 0)). nra.
    + rewrite !nth_overflow by (rewrite ?length_map; lia). lra.
Qed.

(** * Shuffling and splitting *)

Lemma take_some {A : Type} (a : list A) (idx : list nat) :
  Forall (fun i => (i < length a)%nat) idx ->
  exists a0, numpy.take a idx = Ok a0 /\ map Some a0 = map (nth_error a) idx.
Proof.
  induction 1 as [|i idx Hi _ IH].
  - exists []. split; reflexivity.
  - destruct IH as (t & Ht & Et). simpl.
    destruct (nth_error a i) as [v|] eqn:E.
    + exists (v :: t). rewrite Ht. simpl. split; [reflexivity | now rewrite Et].
    + apply nth_error_None in E. lia.
Qed.

Lemma map_nth_error_seq {A : Type} (a : list A) :
  map (nth_error a) (seq 0 (length a)) = map Some a.
Proof.
  induction a as [|h a IH]; [reflexivity|].
  cbn [length seq map nth_error]. f_equal.
  rewrite <- seq_shift, map_map. exact IH.
Qed.

Lemma map_Some_inj {A : Type} (a b : list A) : map Some a = map Some b -> a = b.
Proof.
  revert b; induction a as [|h a IH]; intros [|h' b] H; simpl in *; try discriminate; auto.
  injection H as -> H. f_equal. now apply IH.
Qed.

(** Indexing by a permutation of the positions permutes the array. *)
Lemma take_permutation {A : Type} (a : list A) (perm : list nat) :
  Permutation perm (seq 0 (length a)) ->
  exists a0, numpy.take a perm = Ok a0 /\ Permutation a a0.
Proof.
  intros HP.
  assert (Hin : Forall (fun i => (i < length a)%nat) perm).
  { apply Forall_forall. intros i Hi.
    apply (Permutation_in _ HP) in Hi. apply in_seq in Hi. lia. }
  destruct (take_some a perm Hin) as (a0 & Ht & Ea).
  exists a0. split; [exact Ht|].
  assert (HP' : Permutation (map Some a0) (map Some a)).
  { rewrite Ea, <- map_nth_error_seq. now apply Permutation_map. }
  apply Permutation_map_inv in HP'. destruct HP' as (a1 & E1 & HP1).
  apply map_Some_inj in E1. subst a1. exact HP1.
Qed.

Lemma nth_error_combine {A B : Type} (a : list A) (b : list B) (i : nat) (u : A) (v : B) :
  nth_error a i = Some u -> nth_error b i = Some v ->
  nth_error (combine a b) i = Some (u, v).
Proof.
  revert b i; induction a as [|h a IH]; intros [|h' b] [|i] Ha Hb; simpl in *;
    try discriminate.
  - congruence.
  - now apply IH.
Qed.

(** Indexing two arrays by the same indices keeps the pairs together. *)
Lemma take_combine {A B : Type} (a : list A) (b : list B) (idx : list nat)
      (a0 : list A) (b0 : list B) :
  numpy.take a idx = Ok a0 -> numpy.take b idx = Ok b0 ->
  numpy.take (combine a b) idx = Ok (combine a0 b0) /\ length a0 = length b0.
Proof.
  revert a0 b0. induction idx as [|i idx IH]; intros a0 b0 Ha Hb; simpl in *.
  - injection Ha as <-. injection Hb as <-. split; reflexivity.
  - destruct (nth_error a i) as [u|] eqn:Eu; [|discriminate].
    destruct (nth_error b i) as [v|] eqn:Ev; [|discriminate].
    destruct (numpy.take a idx) as [ta|] eqn:Eta; [|discriminate].
    destruct (numpy.take b idx) as [tb|] eqn:Etb; [|discriminate].
    simpl in Ha, Hb. injection Ha as <-. injection Hb as <-.
    destruct (IH ta tb eq_refl eq_refl) as [Hc Hl].
    rewrite (nth_error_combine a b i u v Eu Ev), Hc. simpl. split; [reflexivity | lia].
Qed.

Lemma combine_app {A B : Type} (a a' : list A) (b b' : list B) :
  length a = length b -> combine (a ++ a') (b ++ b') = combine a b ++ combine a' b'.
Proof.
  revert b; induction a as [|h a IH]; intros [|h' b] H; simpl in *; try discriminate; auto.
  f_equal. apply IH. lia.
Qed.

(** X19.  For arrays of one length N and any permutation drawn by the
    shuffle, [shuffle_and_split] returns four arrays: the training parts have
    min(n, N) elements and the test parts the N - n others (none when
    n >= N), and the (sample, label) pairs of the training part followed by
    those of the test part are a permutation of the original pairs, so no
    sample is lost, repeated or given another sample's label. *)
Theorem shuffle_and_split_partition
        {A B : Type} (perm : list nat) (X : list A) (y : list B) (n : nat) :
  length X = length y ->
  Permutation perm (seq 0 (length X)) ->
  exists (Xtrain : list A) (ytrain : list B) (Xtest : list A) (ytest : list B),
    shuffle_and_split perm X y n = Ok (Xtrain, ytrain, Xtest, ytest)
    /\ length Xtrain = Nat.min n (length X) /\ length ytrain = Nat.min n (length X)
    /\ length Xtest = (length X - n)%nat /\ length ytest = (length X - n)%nat
    /\ Permutation (combine X y) (combine Xtrain ytrain ++ combine Xtest ytest).
Proof.
  intros Hlen HP.
  destruct (take_permutation X perm HP) as (X0 & HX0 & PX).
  assert (HPy : Permutation perm (seq 0 (length y))) by now rewrite <- Hlen.
  destruct (take_permutation y perm HPy) as (y0 & Hy0 & Py).
  destruct (take_combine X y perm X0 y0 HX0 Hy0) as [Hc Hl0].
  assert (HPc : Permutation perm (seq 0 (length (combine X y)))).
  { rewrite length_combine, <- Hlen, Nat.min_id. exact HP. }
  destruct (take_permutation (combine X y) perm HPc) as (c0 & Hc0 & Pc).
  rewrite Hc in Hc0. injection Hc0 as <-.
  assert (LX : length X0 = length X) by (symmetry; now apply Permutation_length).
  assert (Ly : length y0 = length X) by (rewrite <- Hl0; exact LX).
  exists (firstn n X0), (firstn n y0), (skipn n X0), (skipn n y0).
  split.
  - unfold shuffle_and_split, shuffle.
    rewrite Hlen, Nat.eqb_refl, HX0, Hy0. reflexivity.
  - rewrite !length_firstn, !length_skipn, LX, Ly.
    repeat split; try reflexivity.
    rewrite <- combine_app by (rewrite !length_firstn; lia).
    now rewrite !firstn_skipn.
Qed.

Lemma shuffle_and_split_partition_witness :
  exists (Xtrain : list R) (ytrain : list Z) (Xtest : list R) (ytest : list Z),
    shuffle_and_split [2; 0; 3; 1]%nat [10; 11; 12; 13] [0; 1; 2; 3]%Z 3
    = Ok (Xtrain, ytrain, Xtest, ytest)
    /\ length Xtrain = Nat.min 3 4 /\ length ytrain = Nat.min 3 4
    /\ length Xtest = (4 - 3)%nat /\ length ytest = (4 - 3)%nat
    /\ Permutation (combine [10; 11; 12; 13] [0; 1; 2; 3]%Z)
                   (combine Xtrain ytrain ++ combine Xtest ytest).
Proof.
  apply (shuffle_and_split_partition [2; 0; 3; 1]%nat [10; 11; 12; 13] [0; 1; 2; 3]%Z 3).
  - reflexivity.
  - simpl.
    apply perm_trans with [0; 2; 3; 1]%nat; [apply perm_swap|].
    apply perm_skip.
    apply perm_trans with [2; 1; 3]%nat; [apply perm_skip, perm_swap|].
    apply perm_swap.
Defined.

(** * Misclassified examples *)

(** The positions of [True] in a mask, counted from [start]. *)
Lemma indices_from_cons (start : nat) (b : bool) (m : list bool) :
  map fst (filter (fun p => Bool.eqb (snd p) true) (enumerate_from start (b :: m)))
  = (if b then [start] else [])
      ++ map fst (filter (fun p => Bool.eqb (snd p) true) (enumerate_from (S start) m)).
Proof. destruct b; reflexivity. Qed.

Lemma In_indices_from (start i : nat) (m : list bool) :
  In i (map fst (filter (fun p => Bool.eqb (snd p) true) (enumerate_from start m)))
  <-> (start <= i < start + length m)%nat /\ nth (i - start) m false = true.
Proof.
  revert start. induction m as [|b m IH]; intros start.
  - simpl. split; [tauto | intros [H _]; lia].
  - rewrite indices_from_cons, in_app_iff, IH. cbn [length]. split.
    + intros [H | [H1 H2]].
      * destruct b; simpl in H; [|tauto]. destruct H as [<-|[]].
        rewrite Nat.sub_diag. split; [lia | reflexivity].
      * split; [lia|]. replace (i - start)%nat with (S (i - S start)) by lia. exact H2.
    + intros [H1 H2]. destruct (Nat.eq_dec i start) as [->|Hne].
      * left. rewrite Nat.sub_diag in H2. simpl in H2. subst b. now left.
      * right. split; [lia|].
        replace (i - start)%nat with (S (i - S start)) in H2 by lia. exact H2.
Qed.

Lemma indices_from_sorted (start : nat) (m : list bool) :
  StronglySorted lt
    (map fst (filter (fun p => Bool.eqb (snd p) true) (enumerate_from start m))).
Proof.
  revert start. induction m as [|b m IH]; intros start.
  - constructor.
  - rewrite indices_from_cons. destruct b; cbn [app]; [|apply IH].
    constructor; [apply IH|]. apply Forall_forall. intros i Hi.
    apply In_indices_from in Hi. lia.
Qed.

Lemma indices_from_length (start : nat) (m : list bool) :
  length (map fst (filter (fun p => Bool.eqb (snd p) true) (enumerate_from start m)))
  = numpy.sum m.
Proof.
  revert start. induction m as [|b m IH]; intros start; [reflexivity|].
  rewrite indices_from_cons, length_app, IH. unfold numpy.sum.
  destruct b; reflexivity.
Qed.

(** Masking an array keeps the elements at the positions of [True]. *)
Lemma compress_indices {A : Type} (start : nat) (m : list bool) (a : list A) (d : A) :
  length m = length a ->
  numpy.compress m a
  = map (fun i => nth (i - start) a d)
        (map fst (filter (fun p => Bool.eqb (snd p) true) (enumerate_from start m))).
Proof.
  revert start a. induction m as [|b m IH]; intros start [|h a] H; simpl in H;
    try discriminate; [reflexivity|].
  rewrite indices_from_cons, map_app. cbn [numpy.compress].
  assert (E : numpy.compress m a
              = map (fun i => nth (i - start) (h :: a) d)
                    (map fst (filter (fun p => Bool.eqb (snd p) true)
                                     (enumerate_from (S start) m)))).
  { rewrite (IH (S start) a) by lia. apply map_ext_in. intros i Hi.
    apply In_indices_from in Hi.
    replace (i - start)%nat with (S (i - S start)) by lia. reflexivity. }
  destruct b; cbn [map app]; rewrite ?Nat.sub_diag; cbn [nth]; now rewrite E.
Qed.

Lemma not_equal_same_length (a b : list Z) :
  length a = length b ->
  numpy.not_equal a b = Ok (numpy.zip_with (fun u v => negb (Z.eqb u v)) a b).
Proof. apply broadcast_same_length. Qed.

Lemma nth_not_equal (a b : list Z) (i : nat) :
  length a = length b -> (i < length a)%nat ->
  nth i (numpy.zip_with (fun u v => negb (Z.eqb u v)) a b) false = true
  <-> nth i a 0%Z <> nth i b 0%Z.
Proof.
  intros H Hi.
  rewrite (nth_zip_with (fun u v => negb (Z.eqb u v)) a b i 0%Z 0%Z false) by assumption.
  rewrite negb_true_iff. apply Z.eqb_neq.
Qed.

(** What the cell computes on arrays of one length. *)
Lemma find_misclassified_run
        {A : Type} (ypredict ytest : list Z) (Xtest : list A) (d : A) :
  length ypredict = length ytest -> length Xtest = length ytest ->
  exists r : misclassified A,
    find_misclassified ypredict ytest Xtest = Ok r
    /\ StronglySorted lt (misclass_indices r)
    /\ (forall i : nat,
           In i (misclass_indices r)
           <-> (i < length ytest)%nat /\ nth i ypredict 0%Z <> nth i ytest 0%Z)
    /\ ymisclass r = map (fun i => nth i ytest 0%Z) (misclass_indices r)
    /\ Xmisclass r = map (fun i => nth i Xtest d) (misclass_indices r)
    /\ length (misclass_indices r) = numpy.sum (misclass r).
Proof.
  intros Hp HX.
  set (m := numpy.zip_with (fun u v => negb (Z.eqb u v)) ypredict ytest).
  assert (Hm : length m = length ytest)
    by (unfold m; rewrite length_zip_with by exact Hp; exact Hp).
  eexists. split.
  - unfold find_misclassified. rewrite not_equal_same_length by exact Hp. fold m.
    cbn [rbind]. unfold numpy.mask. rewrite Hm, HX, !Nat.eqb_refl. cbn [rbind].
    reflexivity.
  - cbn [misclass_indices ymisclass Xmisclass misclass]. unfold enumerate.
    split; [apply indices_from_sorted|]. split; [|split; [|split]].
    + intros i. rewrite In_indices_from, Nat.sub_0_r, Hm. cbn [Nat.add]. split.
      * intros [Hi Hn]. split; [lia|].
        apply (nth_not_equal ypredict ytest i Hp); [lia | exact Hn].
      * intros [Hi Hn]. split; [lia|].
        apply (nth_not_equal ypredict ytest i Hp); [lia | exact Hn].
    + rewrite (compress_indices 0 m ytest 0%Z) by exact Hm.
      apply map_ext. intros i. now rewrite Nat.sub_0_r.
    + rewrite (compress_indices 0 m Xtest d) by congruence.
      apply map_ext. intros i. now rewrite Nat.sub_0_r.
    + apply indices_from_length.
Qed.

(** X20.  For predictions, labels and samples of one length, the list
    [misclass_indices] is strictly increasing and holds exactly the positions
    where the prediction differs from the label; [ymisclass] and [Xmisclass]
    are the labels and the samples at these positions, in this order, and the
    number of these positions is [np.sum(misclass)]. *)
Theorem find_misclassified_indices
        {A : Type} (ypredict ytest : list Z) (Xtest : list A) (d : A) :
  length ypredict = length ytest -> length Xtest = length ytest ->
  exists r : misclassified A,
    find_misclassified ypredict ytest Xtest = Ok r
    /\ StronglySorted lt (misclass_indices r)
    /\ (forall i : nat,
           In i (misclass_indices r)
           <-> (i < length ytest)%nat /\ nth i ypredict 0%Z <> nth i ytest 0%Z)
    /\ ymisclass r = map (fun i => nth i ytest 0%Z) (misclass_indices r)
    /\ Xmisclass r = map (fun i => nth i Xtest d) (misclass_indices r)
    /\ length (misclass_indices r) = numpy.sum (misclass r).
Proof. apply find_misclassified_run. Qed.

Lemma find_misclassified_indices_witness :
  exists r : misclassified R,
    find_misclassified [1; 0; 1; 1]%Z [1; 1; 1; 0]%Z [10; 11; 12; 13] = Ok r
    /\ StronglySorted lt (misclass_indices r)
    /\ (forall i : nat,
           In i (misclass_indices r)
           <-> (i < 4)%nat /\ nth i [1; 0; 1; 1]%Z 0%Z <> nth i [1; 1; 1; 0]%Z 0%Z)
    /\ ymisclass r = map (fun i => nth i [1; 1; 1; 0]%Z 0%Z) (misclass_indices r)
    /\ Xmisclass r = map (fun i => nth i [10; 11; 12; 13] 0) (misclass_indices r)
    /\ length (misclass_indices r) = numpy.sum (misclass r).
Proof.
  apply (find_misclassified_indices [1; 0; 1; 1]%Z [1; 1; 1; 0]%Z [10; 11; 12; 13] 0);
    reflexivity.
Defined.

Lemma sum_le_length (m : list bool) : (numpy.sum m <= length m)%nat.
Proof. unfold numpy.sum. apply filter_length_le. Qed.

Lemma sum_zero_iff (m : list bool) : numpy.sum m = 0%nat <-> Forall (fun b => b = false) m.
Proof.
  unfold numpy.sum. induction m as [|b m IH]; simpl.
  - split; [constructor | reflexivity].
  - destruct b; simpl.
    + split; [discriminate | intros H; inversion H; discriminate].
    + rewrite IH. split; [now constructor | intros H; now inversion H].
Qed.

Lemma not_equal_all_false (a b : list Z) :
  length a = length b ->
  Forall (fun t => t = false) (numpy.zip_with (fun u v => negb (Z.eqb u v)) a b)
  <-> a = b.
Proof.
  revert b. induction a as [|u a IH]; intros [|v b] H; simpl in *; try discriminate.
  - split; [reflexivity | constructor].
  - split.
    + intros HF. inversion HF as [|? ? H1 H2]; subst.
      apply negb_false_iff, Z.eqb_eq in H1. subst v. f_equal. apply IH; [lia | exact H2].
    + intros E. injection E as -> ->. constructor.
      * now rewrite Z.eqb_refl.
      * apply IH; [lia | reflexivity].
Qed.

(** X21.  For predictions and labels of one non-zero length, the
    generalization error is the number of positions where they differ divided
    by the number of labels: a value between 0 and 1, which is 0 exactly when
    every prediction equals its label. *)
Theorem generalization_error_range (prediction ytest : list Z) :
  length prediction = length ytest -> ytest <> [] ->
  exists (err : R) (wrong : list bool),
    generalization_error prediction ytest = Ok err
    /\ numpy.not_equal prediction ytest = Ok wrong
    /\ err * INR (length ytest) = INR (numpy.sum wrong)
    /\ 0 <= err <= 1
    /\ (err = 0 <-> prediction = ytest).
Proof.
  intros Hlen Hne.
  set (m := numpy.zip_with (fun u v => negb (Z.eqb u v)) prediction ytest).
  assert (Hm : length m = length ytest)
    by (unfold m; rewrite length_zip_with by exact Hlen; exact Hlen).
  assert (Hpos : 0 < INR (length ytest)).
  { apply lt_0_INR. destruct ytest; [contradiction | simpl; lia]. }
  exists (INR (numpy.sum m) / INR (length ytest)), m.
  split.
  { unfold generalization_error. rewrite not_equal_same_length by exact Hlen.
    cbn [rbind]. fold m. apply divide_ok. lra. }
  split; [now apply not_equal_same_length|].
  split; [field; lra|].
  assert (Hs : 0 <= INR (numpy.sum m) <= INR (length ytest)).
  { split; [apply pos_INR|]. apply le_INR. rewrite <- Hm. apply sum_le_length. }
  split.
  - split.
    + unfold Rdiv. apply Rmult_le_pos; [lra | left; now apply Rinv_0_lt_compat].
    + apply Rmult_le_reg_r with (INR (length ytest)); [exact Hpos|].
      unfold Rdiv. rewrite Rmult_assoc, Rinv_l by lra. lra.
  - rewrite <- (not_equal_all_false prediction ytest Hlen). fold m.
    rewrite <- sum_zero_iff. split.
    + intros E. apply INR_eq. simpl.
      apply Rmult_eq_reg_r with (/ INR (length ytest)).
      * unfold Rdiv in E. rewrite E. ring.
      * apply Rinv_neq_0_compat. lra.
    + intros ->. simpl. unfold Rdiv. ring.
Qed.

Lemma generalization_error_range_witness :
  exists (err : R) (wrong : list bool),
    generalization_error [1; 0; 1; 1]%Z [1; 1; 1; 0]%Z = Ok err
    /\ numpy.not_equal [1; 0; 1; 1]%Z [1; 1; 1; 0]%Z = Ok wrong
    /\ err * INR 4 = INR (numpy.sum wrong)
    /\ 0 <= err <= 1
    /\ (err = 0 <-> [1; 0; 1; 1]%Z = [1; 1; 1; 0]%Z).
Proof.
  apply (generalization_error_range [1; 0; 1; 1]%Z [1; 1; 1; 0]%Z);
    [reflexivity | discriminate].
Defined.

Lemma differ_somewhere (a b : list Z) :
  length a = length b -> a <> b ->
  exists i : nat, (i < length a)%nat /\ nth i a 0%Z <> nth i b 0%Z.
Proof.
  revert b. induction a as [|u a IH]; intros [|v b] H Hne; simpl in *; try discriminate.
  - contradiction.
  - destruct (Z.eq_dec u v) as [->|Huv].
    + destruct (IH b) as (i & Hi & Hd); [lia | congruence |].
      exists (S i). split; [lia | exact Hd].
    + exists 0%nat. split; [lia | exact Huv].
Qed.

(** X22.  After the search for misclassified examples on arrays of one
    length: when every prediction equals its label the list of indices is
    empty and [misclass_indices[0]] raises [IndexError]; otherwise the cell
    returns 2000 plus the smallest position where prediction and label
    differ. *)
Theorem first_misclassified_least
        {A : Type} (ypredict ytest : list Z) (Xtest : list A) (r : misclassified A) :
  length ypredict = length ytest -> length Xtest = length ytest ->
  find_misclassified ypredict ytest Xtest = Ok r ->
  (ypredict = ytest ->
   misclass_indices r = []
   /\ first_misclassified (misclass_indices r) = Raise IndexError)
  /\ (ypredict <> ytest ->
      exists i : nat,
        first_misclassified (misclass_indices r) = Ok (i + 2000)%nat
        /\ (i < length ytest)%nat
        /\ nth i ypredict 0%Z <> nth i ytest 0%Z
        /\ forall k : nat, (k < i)%nat -> nth k ypredict 0%Z = nth k ytest 0%Z).
Proof.
  intros Hp HX Hr.
  assert (Hin : forall (d : A) (i : nat),
             In i (misclass_indices r)
             <-> (i < length ytest)%nat /\ nth i ypredict 0%Z <> nth i ytest 0%Z).
  { intros d. destruct (find_misclassified_run ypredict ytest Xtest d Hp HX)
      as (r' & Hr' & _ & H & _).
    rewrite Hr in Hr'. injection Hr' as <-. exact H. }
  assert (Hsorted : StronglySorted lt (misclass_indices r)).
  { destruct Xtest as [|d Xt].
    - unfold find_misclassified in Hr.
      rewrite not_equal_same_length in Hr by exact Hp. cbn [rbind] in Hr.
      destruct (numpy.mask [] _) in Hr; [|discriminate]. cbn [rbind] in Hr.
      destruct (numpy.mask ytest _) in Hr; [|discriminate]. cbn [rbind] in Hr.
      injection Hr as <-. apply indices_from_sorted.
    - destruct (find_misclassified_run ypredict ytest (d :: Xt) d Hp HX)
        as (r' & Hr' & H & _).
      rewrite Hr in Hr'. injection Hr' as <-. exact H. }
  assert (Hin' : forall i : nat,
             In i (misclass_indices r)
             <-> (i < length ytest)%nat /\ nth i ypredict 0%Z <> nth i ytest 0%Z).
  { destruct Xtest as [|d Xt]; [|exact (Hin d)].
    intros i. simpl in HX. split.
    - intros Hi. exfalso.
      unfold find_misclassified in Hr.
      rewrite not_equal_same_length in Hr by exact Hp. cbn [rbind] in Hr.
      destruct ytest; [|discriminate]. destruct ypredict; [|discriminate].
      cbn in Hr. injection Hr as <-. exact Hi.
    - intros [Hi _]. lia. }
  clear Hin. split.
  - intros E. assert (Hnil : misclass_indices r = []).
    { destruct (misclass_indices r) as [|i rest] eqn:Ei; [reflexivity|].
      exfalso. destruct (proj1 (Hin' i) (or_introl eq_refl)) as [_ Hd].
      apply Hd. now rewrite E. }
    split; [exact Hnil | now rewrite Hnil].
  - intros Hne. destruct (differ_somewhere ypredict ytest Hp Hne) as (j & Hj & Hd).
    assert (Hjin : In j (misclass_indices r)) by (apply Hin'; split; [lia | exact Hd]).
    destruct (misclass_indices r) as [|i rest] eqn:Ei; [contradiction|].
    exists i. split; [reflexivity|].
    destruct (proj1 (Hin' i) (or_introl eq_refl)) as [Hi Hdi].
    split; [exact Hi|]. split; [exact Hdi|].
    intros k Hk. destruct (Z.eq_dec (nth k ypredict 0%Z) (nth k ytest 0%Z)) as [E|E];
      [exact E|].
    exfalso. assert (Hkin : In k (i :: rest)) by (apply Hin'; split; [lia | exact E]).
    inversion Hsorted as [|? ? _ Hall]; subst.
    destruct Hkin as [->|Hkin]; [lia|].
    rewrite Forall_forall in Hall. specialize (Hall k Hkin). lia.
Qed.

Lemma first_misclassified_least_witness :
  exists r : misclassified R,
    find_misclassified [1; 0; 1; 1]%Z [1; 1; 1; 0]%Z [10; 11; 12; 13] = Ok r
    /\ exists i : nat,
        first_misclassified (misclass_indices r) = Ok (i + 2000)%nat
        /\ (i < 4)%nat
        /\ nth i [1; 0; 1; 1]%Z 0%Z <> nth i [1; 1; 1; 0]%Z 0%Z
        /\ forall k : nat,
            (k < i)%nat -> nth k [1; 0; 1; 1]%Z 0%Z = nth k [1; 1; 1; 0]%Z 0%Z.
Proof.
  eexists. split; [reflexivity|].
  apply (proj2 (first_misclassified_least [1; 0; 1; 1]%Z [1; 1; 1; 0]%Z [10; 11; 12; 13]
                  _ eq_refl eq_refl eq_refl)).
  discriminate.
Defined.

(** * Running the grid cell again, and plotting after it *)

(** [GPpredict] either is in its domain or raises, leaving the globals. *)
Lemma GPpredict_dichotomy (g : Globals.t) (x_new : R) (X Y : list R) (Kinv : np.ndarray2) :
  (Globals.l g <> 0 /\ (length Y <= length X)%nat
   /\ np.nrows Kinv = length Y /\ np.ncols Kinv = length Y)
  \/ exists e, GPpredict x_new X Y Kinv g = (Raise e, g).
Proof.
  destruct (GPpredict_pure_in_params x_new X Y Kinv g g) as (_ & Hs & _);
    [repeat split|].
  destruct (GPpredict x_new X Y Kinv g) as [[r|e] g'] eqn:E; cbn [snd] in Hs; subst g'.
  - left. now apply GPpredict_Ok_inv in E.
  - right. now exists e.
Qed.

(** The three ways the loop over the grid can end. *)
Lemma predict_on_grid_cases (g : Globals.t) :
  (exists ys ss : list R,
      predict_on_grid g = (Ok tt, set_sigma ss (set_y ys g))
      /\ length ys = length (Globals.x g) /\ length ss = length (Globals.x g)
      /\ (Globals.x g <> [] ->
          Globals.l g <> 0 /\ (length (Globals.Y g) <= length (Globals.X g))%nat
          /\ np.nrows (Globals.Kinv g) = length (Globals.Y g)
          /\ np.ncols (Globals.Kinv g) = length (Globals.Y g))
      /\ forall g0 : Globals.t,
          same_but_y_sigma g g0 ->
          predict_on_grid g0 = (Ok tt, set_sigma ss (set_y ys g0)))
  \/ (exists e : exn,
         Globals.x g <> []
         /\ forall g0 : Globals.t,
             same_but_y_sigma g g0 ->
             predict_on_grid g0
             = (Raise e,
                set_sigma (repeat 0 (length (Globals.x g)))
                          (set_y (repeat 0 (length (Globals.x g))) g0))).
Proof.
  destruct (Globals.x g) as [|x0 xs] eqn:Ex.
  - left. exists [], []. split; [|split; [reflexivity|split; [reflexivity|split]]].
    + unfold predict_on_grid, bind, load, store_y, store_sigma, for_range.
      globals_simpl. rewrite Ex. reflexivity.
    + intros H. contradiction.
    + intros g0 (_ & _ & _ & _ & _ & _ & _ & Hx).
      unfold predict_on_grid, bind, load, store_y, store_sigma, for_range.
      globals_simpl. rewrite Hx, Ex. reflexivity.
  - destruct (GPpredict_dichotomy g x0 (Globals.X g) (Globals.Y g) (Globals.Kinv g))
      as [(Hl & Hlen & Hr & Hc) | (e & He)].
    + left. eexists _, _. split; [|split; [|split; [|split]]].
      * rewrite predict_on_grid_run by assumption. reflexivity.
      * rewrite length_map. now rewrite Ex.
      * rewrite length_map. now rewrite Ex.
      * intros _. auto.
      * intros g0 (Hsk & Hl0 & Hsn & HX & HY & _ & HK & Hx).
        rewrite predict_on_grid_run by congruence.
        now rewrite Hsk, Hl0, Hsn, HX, HY, HK, Hx.
    + right. exists e. split; [discriminate|].
      intros g0 (Hsk & Hl0 & Hsn & HX & HY & HN & HK & Hx).
      rewrite <- Ex, <- Hx. apply predict_on_grid_fails_first; [rewrite Hx, Ex; discriminate|].
      rewrite Hx, Ex, HX, HY, HK. cbn [nth].
      destruct (GPpredict_pure_in_params x0 (Globals.X g) (Globals.Y g) (Globals.Kinv g)
                  g0 g) as (Hv & Hs & _); [repeat split; assumption|].
      rewrite He in Hv. cbn [fst] in Hv.
      destruct (GPpredict x0 (Globals.X g) (Globals.Y g) (Globals.Kinv g) g0) as [r g1].
      cbn [fst snd] in Hv, Hs. now subst.
Qed.

Lemma same_but_y_sigma_set (ys ss : list R) (g : Globals.t) :
  same_but_y_sigma g (set_sigma ss (set_y ys g)).
Proof. repeat split. Qed.

(** X15.  Running the grid cell a second time changes nothing: from the
    globals the first run leaves, whether it returned or raised, the second
    run ends the same way and leaves the same globals. *)
Theorem predict_on_grid_idempotent (g : Globals.t) :
  predict_on_grid (snd (predict_on_grid g)) = predict_on_grid g.
Proof.
  destruct (predict_on_grid_cases g) as [(ys & ss & H & _ & _ & _ & Hall) | (e & _ & Hall)].
  - rewrite H. cbn [snd]. rewrite (Hall _ (same_but_y_sigma_set ys ss g)).
    now rewrite set_sigma_set_y.
  - rewrite (Hall g (same_but_y_sigma_refl g)). cbn [snd].
    rewrite (Hall _ (same_but_y_sigma_set _ _ g)). now rewrite set_sigma_set_y.
Qed.

(** X17.  Whenever the loop over the grid returns, the arrays it leaves can
    be plotted: [x], [y] and [sigma] have one length n and the polygon built
    for [plt.fill] has 2n vertices in both coordinates, without any
    exception. *)
Theorem fill_polygon_after_predict_on_grid (g g' : Globals.t) :
  predict_on_grid g = (Ok tt, g') ->
  Globals.x g' = Globals.x g
  /\ length (Globals.y g') = length (Globals.x g)
  /\ length (Globals.sigma g') = length (Globals.x g)
  /\ exists px py : list R,
      fill_polygon (Globals.x g') (Globals.y g') (Globals.sigma g') = Ok (px, py)
      /\ length px = (2 * length (Globals.x g))%nat
      /\ length py = (2 * length (Globals.x g))%nat.
Proof.
  intros H.
  destruct (predict_on_grid_cases g) as [(ys & ss & H' & Hy & Hs & _) | (e & _ & Hall)].
  - rewrite H in H'. injection H' as ->. globals_simpl.
    split; [reflexivity|]. split; [exact Hy|]. split; [exact Hs|].
    assert (Hsc : length ys = length (numpy.scale (196 / 100) ss))
      by (unfold numpy.scale; rewrite length_map; congruence).
    unfold fill_polygon, numpy.subtract, numpy.add.
    rewrite !broadcast_same_length by exact Hsc. cbn [rbind].
    do 2 eexists. split; [reflexivity|].
    unfold numpy.concatenate, numpy.flip. cbn [concat].
    rewrite !app_nil_r, !length_app, !length_rev, !length_zip_with by exact Hsc.
    lia.
  - rewrite (Hall g (same_but_y_sigma_refl g)) in H. discriminate.
Qed.

Lemma fill_polygon_after_predict_on_grid_witness :
  let g := Globals.mk 3 1 (3 / 10) [1; 2] [1; 4] 2 (np.eye 2) [0; 1; 5] [] [] in
  exists g' : Globals.t,
    predict_on_grid g = (Ok tt, g')
    /\ Globals.x g' = [0; 1; 5]
    /\ length (Globals.y g') = 3%nat
    /\ length (Globals.sigma g') = 3%nat
    /\ exists px py : list R,
        fill_polygon (Globals.x g') (Globals.y g') (Globals.sigma g') = Ok (px, py)
        /\ length px = 6%nat /\ length py = 6%nat.
Proof.
  eexists. split.
  - apply predict_on_grid_run; try reflexivity; simpl; try lra; lia.
  - apply (fill_polygon_after_predict_on_grid
             (Globals.mk 3 1 (3 / 10) [1; 2] [1; 4] 2 (np.eye 2) [0; 1; 5] [] [])).
    apply predict_on_grid_run; try reflexivity; simpl; try lra; lia.
Defined.

(** * Shifting the inputs *)

Lemma kernel_shift (x1 x2 t sk l sn : R) :
  kernel (x1 + t) (x2 + t) sk l sn = kernel x1 x2 sk l sn.
Proof.
  unfold kernel. rewrite Req_bool_shift.
  replace (- (x1 + t - (x2 + t)) ^ 2) with (- (x1 - x2) ^ 2) by ring. reflexivity.
Qed.

Lemma bind_ext {A B : Type} (m1 m2 : M A) (f1 f2 : A -> M B) (g : Globals.t) :
  m1 g = m2 g -> (forall a g', f1 a g' = f2 a g') -> bind m1 f1 g = bind m2 f2 g.
Proof.
  intros Hm Hf. unfold bind. rewrite Hm.
  destruct (m2 g) as [[a|e] g']; [apply Hf | reflexivity].
Qed.

(** X11.  The prediction only depends on the positions of the training
    inputs relative to the query point: shifting the query point and every
    training input by the same amount changes neither the result nor the
    exception of [GPpredict]. *)
Theorem GPpredict_shift_invariant
        (g : Globals.t) (x_new t : R) (x_data y_data : list R) (Kinv : np.ndarray2) :
  GPpredict (x_new + t) (map (fun xi => xi + t) x_data) y_data Kinv g
  = GPpredict x_new x_data y_data Kinv g.
Proof.
  unfold GPpredict, for_range. apply bind_ext.
  - apply for_loop_ext. intros i a g' _. unfold bind, lift, load, np.getitem.
    rewrite nth_error_map. destruct (nth_error x_data i) as [xi|]; [|reflexivity].
    cbn [option_map]. now rewrite kernel_shift.
  - intros Kstar g'. unfold bind, lift, load, ret. now rewrite !kernel_shift.
Qed.
